(** * memorystore: a session store on a bounded, time-expiring LRU cache

    Shallow embedding of [lib/memorystore.js] and proofs about its TTL
    resolution, its store operations and its sweeper.

    Conventions of the embedding:
    - JavaScript numbers that are timestamps or durations are integer
      milliseconds, in [Z]; [Date.now()] is the [now] argument of every
      operation that reads the clock.
    - Objects live in a heap and are passed by reference: a session stored
      under two keys is one object.
    - A callback [fn] is handed its arguments after the operation has run
      ([fn && defer(fn, null, data)]); an operation's result here is what the
      callback is called with.  [debug] only logs and is left out. *)

From Stdlib Require Import ZArith Lia.
From stdpp Require Import gmap strings list fin_maps sorting.

(** ** JavaScript values, objects and exceptions *)
Module JS.

Definition loc := nat.

Inductive Val :=
| VUndefined
| VNull
| VBool (b : bool)
| VNumber (n : Z)
| VString (s : string)
| VObject (l : loc).

#[global] Instance Val_eq_dec : EqDecision Val.
Proof. solve_decision. Defined.

(** An object is a map from property names to values (own properties only),
    the heap a map from references to objects. *)
Abbreviation Obj := (gmap string Val).
Abbreviation Heap := (gmap loc (gmap string Val)).

Inductive Error := TypeError (msg : string).

(** The outcome of evaluating code that may [throw]. *)
Inductive Completion (A : Type) :=
| Normal (a : A)
| Throw (e : Error).
Arguments Normal {A} a.
Arguments Throw {A} e.

#[global] Instance Completion_bind : MBind Completion := fun A B k c =>
  match c with
  | Normal a => k a
  | Throw e => Throw e
  end.

Definition is_Normal {A} (c : Completion A) : bool :=
  match c with Normal _ => true | Throw _ => false end.

Inductive TypeOf := TyUndefined | TyObject | TyBoolean | TyNumber | TyString | TyFunction.

Definition typeof (v : Val) : TypeOf :=
  match v with
  | VUndefined => TyUndefined
  | VNull => TyObject
  | VBool _ => TyBoolean
  | VNumber _ => TyNumber
  | VString _ => TyString
  | VObject _ => TyObject
  end.

(** ToBoolean, as used by [if (x)], [x || y] and [x && y]. *)
Definition truthy (v : Val) : bool :=
  match v with
  | VUndefined | VNull => false
  | VBool b => b
  | VNumber n => negb (n =? 0)%Z
  | VString s => negb (bool_decide (s = ""%string))
  | VObject _ => true
  end.

(** [v.p]: reading a property of [undefined] or [null] throws; a primitive
    has no own property; an object yields [undefined] for a missing one. *)
Definition get_prop (h : Heap) (v : Val) (p : string) : Completion Val :=
  match v with
  | VUndefined | VNull => Throw (TypeError "Cannot read properties of undefined or null")
  | VObject l => Normal (default VUndefined (h !! l ≫= (.!! p)))
  | VBool _ | VNumber _ | VString _ => Normal VUndefined
  end.

(** [v.p = x] in sloppy mode (the module has no "use strict"): throws on
    [undefined] and [null], is dropped on a primitive, and updates the one
    shared object otherwise. *)
Definition set_prop (h : Heap) (v : Val) (p : string) (x : Val) : Completion Heap :=
  match v with
  | VUndefined | VNull => Throw (TypeError "Cannot set properties of undefined or null")
  | VObject l => Normal (<[l := <[p := x]> (default ∅ (h !! l))]> h)
  | VBool _ | VNumber _ | VString _ => Normal h
  end.

(** [Math.floor] on an integer number of milliseconds. *)
Definition Math_floor (n : Z) : Z := n.

End JS.
Import JS.

(** An entry count: [options.max] and the cache's capacity. *)
Inductive Count := Finite (n : nat) | Infinity.

Definition within (n : nat) (c : Count) : Prop :=
  match c with Finite m => n <= m | Infinity => True end.

(** ** The bounded TTL cache behind [require('lru-cache')] *)
Module LRU.

(** Modelled from the spec: the cache that [LRU(this.options)] returns comes
    from the [lru-cache] package, which is not part of the sources.  Data
    model and operations follow sections 3 and 4.1 of the specification: an
    entry is [{key, value, insertedOrUpdatedAt, ttlMillis}], the access
    order keeps the most recently used entry first, an entry is expired
    once [insertedOrUpdatedAt + ttlMillis] is at or before the current
    time, reads treat an expired entry as absent, and an insertion evicts
    least recently used entries until the count is within the cap. *)
Record Entry := {
  key : string;
  value : Val;
  insertedOrUpdatedAt : Z;
  ttlMillis : Z
}.

Record Cache := {
  maxEntries : Count;
  entries : list Entry  (* most recently used first *)
}.

Definition create (max : Count) : Cache :=
  {| maxEntries := max; entries := [] |}.

Definition expiry (e : Entry) : Z := (insertedOrUpdatedAt e + ttlMillis e)%Z.

Definition expired (now : Z) (e : Entry) : bool := (expiry e <=? now)%Z.

Definition has_key (k : string) (e : Entry) : bool := bool_decide (key e = k).

Definition find (k : string) (es : list Entry) : option Entry :=
  List.find (has_key k) es.

Definition remove (k : string) (es : list Entry) : list Entry :=
  filter (fun e => key e ≠ k) es.

Definition live (now : Z) (es : list Entry) : list Entry :=
  filter (fun e => expired now e = false) es.

(** Keep the most recently used entries that fit the cap. *)
Definition trim (max : Count) (es : list Entry) : list Entry :=
  match max with
  | Finite n => take n es
  | Infinity => es
  end.

Definition with_entries (c : Cache) (es : list Entry) : Cache :=
  {| maxEntries := maxEntries c; entries := es |}.

(** [get(key)]: absent ([undefined]) for an unknown or expired key; a hit
    becomes the most recently used entry. *)
Definition get (now : Z) (k : string) (c : Cache) : Val * Cache :=
  match find k (entries c) with
  | None => (VUndefined, c)
  | Some e =>
      if expired now e
      then (VUndefined, with_entries c (remove k (entries c)))
      else (value e, with_entries c (e :: remove k (entries c)))
  end.

(** [set(key, value, ttlMillis)]: insert or replace at the most recently
    used position with the lifetime counted from now, then evict. *)
Definition set (now : Z) (k : string) (v : Val) (ttl : Z) (c : Cache) : Cache :=
  let e := {| key := k; value := v; insertedOrUpdatedAt := now; ttlMillis := ttl |} in
  with_entries c (trim (maxEntries c) (e :: remove k (entries c))).

Definition del (k : string) (c : Cache) : Cache :=
  with_entries c (remove k (entries c)).

Definition reset (c : Cache) : Cache := with_entries c [].

(** The sweep: drop every expired entry. *)
Definition prune (now : Z) (c : Cache) : Cache :=
  with_entries c (live now (entries c)).

Definition keys (now : Z) (c : Cache) : list string :=
  map key (live now (entries c)).

(** [forEach(fn)] visits the non-expired entries, most recently used first. *)
Definition forEach (now : Z) (c : Cache) : list Entry := live now (entries c).

Definition itemCount (c : Cache) : nat := List.length (entries c).

End LRU.

(** ** TTL resolution *)

(** [options.ttl] when it is a function of (options, sess, sid).  The
    function sees the plain fields of the options object, the heap (to read
    the session) and the key, and returns a number of milliseconds.  This
    covers a resolver that returns normally, with a number, and writes
    nothing; a resolver is user code and may also throw, return something
    else or write to the session or the options, which is not covered:
    the properties that would depend on it are stated for a [ttl] option
    that is not a function. *)
Record OptionsView := {
  view_checkPeriod : option Z;
  view_max : option Count
}.

Definition Resolver := OptionsView -> Heap -> Val -> string -> Z.

Inductive TtlOption :=
| TtlVal (v : Val)
| TtlFunction (f : Resolver).

(** The options object: each field is [undefined] ([None]) or set. *)
Record Options := {
  checkPeriod : option Z;
  max : option Count;
  ttl : TtlOption
}.

Definition no_options : Options :=
  {| checkPeriod := None; max := None; ttl := TtlVal VUndefined |}.

(** What [getTTL] is handed as its [options]: the options object (from
    [set]) or the cache object (from [touch]). *)
Inductive OptionsLike :=
| OfOptions (o : Options)
| OfCache (c : LRU.Cache).

(** [options.ttl] on either object.  The cache object has no [ttl]
    property, so the read yields [undefined]. *)
Definition prop_ttl (o : OptionsLike) : TtlOption :=
  match o with
  | OfOptions o => ttl o
  | OfCache _ => TtlVal VUndefined
  end.

Definition view_of (o : OptionsLike) : OptionsView :=
  match o with
  | OfOptions o => {| view_checkPeriod := checkPeriod o; view_max := max o |}
  | OfCache c => {| view_checkPeriod := None; view_max := Some (LRU.maxEntries c) |}
  end.

(** "One day in milliseconds." *)
Definition oneDay : Z := 3600000.

Definition getTTL (h : Heap) (options : OptionsLike) (sess : Val) (sid : string)
  : Completion Z :=
  match prop_ttl options with
  | TtlVal (VNumber n) => Normal n
  | TtlFunction f => Normal (f (view_of options) h sess sid)
  | TtlVal v =>
      if truthy v
      then Throw (TypeError "`options.ttl` must be a number or function.")
      else
        cookie ← get_prop h sess "cookie";
        maxAge ← get_prop h cookie "maxAge";
        Normal (match maxAge with
                | VNumber n => Math_floor n
                | _ => oneDay
                end)
  end.

Definition typeof_ttl (t : TtlOption) : TypeOf :=
  match t with
  | TtlVal v => typeof v
  | TtlFunction _ => TyFunction
  end.

Definition truthy_ttl (t : TtlOption) : bool :=
  match t with
  | TtlVal v => truthy v
  | TtlFunction _ => true
  end.

(** ** The host's interval timers *)

(** The active intervals of the host, by handle, with their period. *)
Definition setInterval (period : Z) (timers : gmap nat Z) : nat * gmap nat Z :=
  let handle := fresh (dom timers) in
  (handle, <[handle := period]> timers).

Definition clearInterval (handle : nat) (timers : gmap nat Z) : gmap nat Z :=
  delete handle timers.

(** ** The store *)
Module MemoryStore.

Record Self := {
  options : Options;
  store : LRU.Cache;
  _checkInterval : nat
}.

(** [x || d] on an optional number. *)
Definition or_number (x : option Z) (d : Z) : Z :=
  match x with
  | Some n => if (n =? 0)%Z then d else n
  | None => d
  end.

(** [x || Infinity] on an optional count. *)
Definition or_Infinity (x : option Count) : Count :=
  match x with
  | Some (Finite 0) => Infinity
  | Some c => c
  | None => Infinity
  end.

Definition with_store (self : Self) (c : LRU.Cache) : Self :=
  {| options := options self; store := c; _checkInterval := _checkInterval self |}.

(** The callback handed to [setInterval]. *)
Definition sweep (now : Z) (self : Self) : Self :=
  with_store self (LRU.prune now (store self)).

(** [MemoryStore(options)], called with [new] or as a plain function.  The
    call of the base constructor [Store.call(this, options)] sets up the
    event emitter of express-session and does not touch the fields below.
    The source keeps the caller's own options object in [this.options] and
    writes the defaults into it; here the store holds the resulting fields
    as a record of its own, so what the caller writes to that object after
    the construction is not covered. *)
Definition MemoryStore (with_new : bool) (opts : option Options) (timers : gmap nat Z)
  : Completion (Self * gmap nat Z) :=
  if negb with_new
  then Throw (TypeError "Cannot call MemoryStore constructor as a function")
  else
    let opts := default no_options opts in
    let this_options :=
      {| checkPeriod := Some (or_number (checkPeriod opts) oneDay);
         max := Some (or_Infinity (max opts));
         ttl := ttl opts |} in
    let cache := LRU.create (default Infinity (max this_options)) in
    let '(handle, timers) :=
      setInterval (default oneDay (checkPeriod this_options)) timers in
    Normal ({| options := this_options; store := cache; _checkInterval := handle |},
            timers).

Definition get (now : Z) (sid : string) (self : Self) : Val * Self :=
  let '(data, c) := LRU.get now sid (store self) in
  (data, with_store self c).

Definition set (h : Heap) (now : Z) (sid : string) (sess : Val) (self : Self)
  : Completion Self :=
  ttl ← getTTL h (OfOptions (options self)) sess sid;
  Normal (with_store self (LRU.set now sid sess ttl (store self))).

(** The argument of [destroy]: one key or an array of keys. *)
Inductive SidArg :=
| One (sid : string)
| Many (sids : list string).

Definition destroy (sid : SidArg) (self : Self) : Self :=
  match sid with
  | Many sids => with_store self (foldl (fun c s => LRU.del s c) (store self) sids)
  | One sid => with_store self (LRU.del sid (store self))
  end.

Definition touch (h : Heap) (now : Z) (sid : string) (sess : Val) (self : Self)
  : Completion Self :=
  ttl ← getTTL h (OfCache (store self)) sess sid;
  Normal (with_store self (LRU.set now sid sess ttl (store self))).

Definition ids (now : Z) (self : Self) : list string :=
  LRU.keys now (store self).

(** The body of the [forEach] callback of [all], entry by entry:
    [val.id = key; result.push(val)]. *)
Fixpoint all_loop (h : Heap) (es : list LRU.Entry) (result : list Val)
  : Heap * Completion (list Val) :=
  match es with
  | [] => (h, Normal result)
  | e :: es =>
      match set_prop h (LRU.value e) "id" (VString (LRU.key e)) with
      | Normal h' => all_loop h' es (result ++ [LRU.value e])
      | Throw err => (h, Throw err)
      end
  end.

Definition all (h : Heap) (now : Z) (self : Self) : Heap * Completion (list Val) :=
  all_loop h (LRU.forEach now (store self)) [].

Definition clear (self : Self) : Self :=
  with_store self (LRU.reset (store self)).

Definition length (self : Self) : nat :=
  LRU.itemCount (store self).

End MemoryStore.

(** ** The store in its host: heap, timers and the calls made on it *)

Record Sys := {
  heap : Heap;
  timers : gmap nat Z;
  self : MemoryStore.Self
}.

(** The operations the store exposes ([MemoryStore.prototype]). *)
Inductive Call :=
| Get (now : Z) (sid : string)
| Set_ (now : Z) (sid : string) (sess : Val)
| Destroy (sid : MemoryStore.SidArg)
| Touch (now : Z) (sid : string) (sess : Val)
| Ids (now : Z)
| All (now : Z)
| Clear
| Length.

Inductive Reply :=
| RData (v : Val)
| RIds (ks : list string)
| RSessions (vs : list Val)
| RCount (n : nat)
| RDone
| RThrow (e : Error).

Definition with_self (s : Sys) (self' : MemoryStore.Self) : Sys :=
  {| heap := heap s; timers := timers s; self := self' |}.

Definition call (c : Call) (s : Sys) : Reply * Sys :=
  match c with
  | Get now sid =>
      let '(data, self') := MemoryStore.get now sid (self s) in
      (RData data, with_self s self')
  | Set_ now sid sess =>
      match MemoryStore.set (heap s) now sid sess (self s) with
      | Normal self' => (RDone, with_self s self')
      | Throw e => (RThrow e, s)
      end
  | Destroy sid => (RDone, with_self s (MemoryStore.destroy sid (self s)))
  | Touch now sid sess =>
      match MemoryStore.touch (heap s) now sid sess (self s) with
      | Normal self' => (RDone, with_self s self')
      | Throw e => (RThrow e, s)
      end
  | Ids now => (RIds (MemoryStore.ids now (self s)), s)
  | All now =>
      let '(h, r) := MemoryStore.all (heap s) now (self s) in
      (match r with Normal vs => RSessions vs | Throw e => RThrow e end,
       {| heap := h; timers := timers s; self := self s |})
  | Clear => (RDone, with_self s (MemoryStore.clear (self s)))
  | Length => (RCount (MemoryStore.length (self s)), s)
  end.

(** What can happen to a running store: a call, a tick of one of the
    host's intervals, the host cancelling an interval, or the caller
    writing a property of an object of the heap ([obj.p = x]; the heap
    holds the sessions and what they refer to, not the options object or
    the store). *)
Inductive Event :=
| Invoke (c : Call)
| Tick (handle : nat) (now : Z)
| ClearInterval (handle : nat)
| Assign (l : loc) (p : string) (x : Val).

(** A tick runs the store's callback when the interval is the store's own
    and is still active. *)
Definition tick (handle : nat) (now : Z) (s : Sys) : Sys :=
  if bool_decide (handle = MemoryStore._checkInterval (self s))
     && bool_decide (is_Some (timers s !! handle))
  then with_self s (MemoryStore.sweep now (self s))
  else s.

Definition step (s : Sys) (ev : Event) : Sys :=
  match ev with
  | Invoke c => snd (call c s)
  | Tick handle now => tick handle now s
  | ClearInterval handle =>
      {| heap := heap s; timers := clearInterval handle (timers s); self := self s |}
  | Assign l p x =>
      match set_prop (heap s) (VObject l) p x with
      | Normal h => {| heap := h; timers := timers s; self := self s |}
      | Throw _ => s
      end
  end.

Definition run (s : Sys) (evs : list Event) : Sys := foldl step s evs.

(** [new MemoryStore(options)] in a host with the given heap and timers. *)
Definition boot (h : Heap) (tm : gmap nat Z) (opts : option Options) : Completion Sys :=
  '(self, tm') ← MemoryStore.MemoryStore true opts tm;
  Normal {| heap := h; timers := tm'; self := self |}.

(** The sweeper's state machine. *)
Inductive Sweeper := Stopped | Running.

Definition sweeper (tm : gmap nat Z) (handle : nat) : Sweeper :=
  if bool_decide (is_Some (tm !! handle)) then Running else Stopped.

Definition sweeper_of (s : Sys) : Sweeper :=
  sweeper (timers s) (MemoryStore._checkInterval (self s)).

(** The states a store can be in: constructed with [new] in some host, then
    driven by any events. *)
Definition reachable (s : Sys) : Prop :=
  exists h tm opts s0 evs, boot h tm opts = Normal s0 /\ s = run s0 evs.

(** ** Recency of use *)

(** The key an event inserts or reads, if it does: a [set] or [touch]
    that resolves a TTL, or a [get] that finds a live entry. *)
Definition used_key (s : Sys) (ev : Event) : option string :=
  match ev with
  | Invoke (Get now sid) =>
      match LRU.find sid (LRU.entries (MemoryStore.store (self s))) with
      | Some e => if LRU.expired now e then None else Some sid
      | None => None
      end
  | Invoke (Set_ now sid sess) =>
      if is_Normal (MemoryStore.set (heap s) now sid sess (self s))
      then Some sid else None
  | Invoke (Touch now sid sess) =>
      if is_Normal (MemoryStore.touch (heap s) now sid sess (self s))
      then Some sid else None
  | _ => None
  end.

(** The keys used along a run, the most recent use first. *)
Fixpoint uses_from (log : list string) (s : Sys) (evs : list Event) : list string :=
  match evs with
  | [] => log
  | ev :: evs =>
      uses_from (from_option (fun k => k :: log) log (used_key s ev)) (step s ev) evs
  end.

Definition uses (s : Sys) (evs : list Event) : list string := uses_from [] s evs.

(** How many uses ago key [k] was last used (the length of the log when it
    never was). *)
Fixpoint rank (k : string) (log : list string) : nat :=
  match log with
  | [] => 0
  | k' :: log => if decide (k' = k) then 0 else S (rank k log)
  end.

Definition more_recent (log : list string) (k1 k2 : string) : Prop :=
  rank k1 log < rank k2 log.

(** Events that neither [set] nor [touch] key [k]. *)
Definition avoids (k : string) (ev : Event) : Prop :=
  match ev with
  | Invoke (Set_ _ sid _) | Invoke (Touch _ sid _) => sid ≠ k
  | _ => True
  end.

(** The keys named by the argument of [destroy]. *)
Definition sids_of (sid : MemoryStore.SidArg) : list string :=
  match sid with
  | MemoryStore.One k => [k]
  | MemoryStore.Many ks => ks
  end.

Abbreviation entries_of s := (LRU.entries (MemoryStore.store (self s))).

Definition stored (k : string) (s : Sys) : Prop :=
  is_Some (LRU.find k (entries_of s)).

(** Every entry stored under [k] has expired by time [T]. *)
Definition gone_by (k : string) (T : Z) (es : list LRU.Entry) : Prop :=
  forall e, e ∈ es -> LRU.key e = k -> (LRU.expiry e <= T)%Z.

(** The entries are in order of use: each one was used more recently than
    all that follow it, and each one's key occurs in the log of uses. *)
Definition in_use_order (log : list string) (es : list LRU.Entry) : Prop :=
  StronglySorted (fun e1 e2 => more_recent log (LRU.key e1) (LRU.key e2)) es
  /\ Forall (fun e => LRU.key e ∈ log) es.

(** The cache holds no more entries than its capacity. *)
Definition within_capacity (c : LRU.Cache) : Prop :=
  within (LRU.itemCount c) (LRU.maxEntries c).

(** [undefined] and [null], the values whose properties cannot be read or
    written. *)
Definition nullish (v : Val) : bool :=
  match v with
  | VUndefined | VNull => true
  | _ => false
  end.

(** No usable [ttl] option: what is configured is falsy and not a number,
    so [getTTL] falls through to the session's cookie. *)
Definition ttl_unset (t : TtlOption) : Prop :=
  truthy_ttl t = false /\ typeof_ttl t ≠ TyNumber.

(** The events of the store and its host: all but the caller's writes. *)
Definition not_caller_write (ev : Event) : Prop :=
  match ev with
  | Assign _ _ _ => False
  | _ => True
  end.

(** ** Concrete stores used in the examples *)

(** A session [{cookie: {}}] at reference 1 and one with
    [{cookie: {maxAge: 1000}}] at reference 3. *)
Definition demo_heap : Heap :=
  {[ 1 := {[ "cookie"%string := VObject 2 ]};
     2 := ∅;
     3 := {[ "cookie"%string := VObject 4 ]};
     4 := {[ "maxAge"%string := VNumber 1000 ]};
     5 := ∅ ]}.

Definition demo_self (mx : option Count) (t : TtlOption) : MemoryStore.Self :=
  {| MemoryStore.options :=
       {| checkPeriod := Some oneDay;
          max := Some (MemoryStore.or_Infinity mx);
          ttl := t |};
     MemoryStore.store := LRU.create (MemoryStore.or_Infinity mx);
     MemoryStore._checkInterval := 0 |}.

(** The system right after [new MemoryStore({max: mx, ttl: t})] in a host
    that had no timers: the store's interval got handle 0. *)
Definition demo_sys (mx : option Count) (t : TtlOption) : Sys :=
  {| heap := demo_heap;
     timers := {[ 0 := oneDay ]};
     self := demo_self mx t |}.

(** * Proofs *)

Lemma demo_sys_boot mx t :
  boot demo_heap ∅ (Some {| checkPeriod := None; max := mx; ttl := t |})
  = Normal (demo_sys mx t).
Proof. reflexivity. Qed.

Lemma demo_sys_reachable mx t : reachable (demo_sys mx t).
Proof.
  exists demo_heap, ∅, (Some {| checkPeriod := None; max := mx; ttl := t |}),
    (demo_sys mx t), [].
  split; [apply demo_sys_boot | reflexivity].
Qed.

(** ** TTL resolution *)

Lemma getTTL_number h o n sess sid :
  prop_ttl o = TtlVal (VNumber n) -> getTTL h o sess sid = Normal n.
Proof. unfold getTTL. intros ->. reflexivity. Qed.

Lemma getTTL_function h o f sess sid :
  prop_ttl o = TtlFunction f -> getTTL h o sess sid = Normal (f (view_of o) h sess sid).
Proof. unfold getTTL. intros ->. reflexivity. Qed.

(** With a falsy [ttl] that is not a number, resolution falls through to the
    session's cookie. *)
Lemma getTTL_fallback h o v sess sid :
  prop_ttl o = TtlVal v -> typeof v ≠ TyNumber -> truthy v = false ->
  getTTL h o sess sid =
    cookie ← get_prop h sess "cookie";
    maxAge ← get_prop h cookie "maxAge";
    Normal (match maxAge with VNumber n => Math_floor n | _ => oneDay end).
Proof.
  unfold getTTL. intros -> Hty Hfalsy.
  destruct v; simpl in *; try congruence; rewrite ?Hfalsy; reflexivity.
Qed.

Lemma getTTL_truthy_other h o v sess sid :
  prop_ttl o = TtlVal v -> typeof v ≠ TyNumber -> truthy v = true ->
  getTTL h o sess sid = Throw (TypeError "`options.ttl` must be a number or function.").
Proof.
  unfold getTTL. intros -> Hty Htruthy.
  destruct v; simpl in *; try congruence; rewrite ?Htruthy; reflexivity.
Qed.

(** C1 (as the code has it): with no [ttl] option and a session whose
    cookie has no numeric [maxAge], [getTTL] resolves to [oneDay], which is
    3600000 ms (one hour) and not the 86400000 ms of a day; [set] stores
    the entry with that TTL. *)
Theorem C1_default_ttl_is_3600000
    (h : Heap) (self : MemoryStore.Self) (now : Z) (sid : string)
    (sess cookie maxAge : Val) :
  ttl (MemoryStore.options self) = TtlVal VUndefined ->
  get_prop h sess "cookie" = Normal cookie ->
  get_prop h cookie "maxAge" = Normal maxAge ->
  typeof maxAge ≠ TyNumber ->
  getTTL h (OfOptions (MemoryStore.options self)) sess sid = Normal 3600000%Z
  /\ MemoryStore.set h now sid sess self =
       Normal (MemoryStore.with_store self
                 (LRU.set now sid sess 3600000 (MemoryStore.store self)))
  /\ (3600000 ≠ 86400000)%Z.
Proof.
  intros Httl Hcookie HmaxAge Hty.
  assert (getTTL h (OfOptions (MemoryStore.options self)) sess sid = Normal 3600000%Z)
    as Hres.
  { rewrite (getTTL_fallback h _ VUndefined) by (simpl; done).
    rewrite Hcookie. simpl. rewrite HmaxAge. simpl.
    destruct maxAge; simpl in Hty; try congruence; reflexivity. }
  split; [exact Hres|]. split; [|lia].
  unfold MemoryStore.set. rewrite Hres. reflexivity.
Qed.

Lemma C1_default_ttl_witness :
  getTTL demo_heap (OfOptions (MemoryStore.options (demo_self None (TtlVal VUndefined))))
    (VObject 1) "a" = Normal 3600000%Z
  /\ MemoryStore.set demo_heap 0 "a" (VObject 1) (demo_self None (TtlVal VUndefined)) =
       Normal (MemoryStore.with_store (demo_self None (TtlVal VUndefined))
                 (LRU.set 0 "a" (VObject 1) 3600000
                    (MemoryStore.store (demo_self None (TtlVal VUndefined)))))
  /\ (3600000 ≠ 86400000)%Z.
Proof.
  apply (C1_default_ttl_is_3600000 demo_heap (demo_self None (TtlVal VUndefined))
           0 "a" (VObject 1) (VObject 2) VUndefined).
  - reflexivity.
  - reflexivity.
  - reflexivity.
  - simpl. discriminate.
Defined.

(** C3 (as the code has it): [touch] hands the cache object to [getTTL],
    so it resolves the TTL as a store without a [ttl] option would,
    whatever is configured.  With [{ttl: 5000}] and a session whose cookie
    has [maxAge] 1000, [set] stores the entry with TTL 5000 and [touch]
    with TTL 1000. *)
Theorem C3_touch_ignores_configured_ttl :
  (forall h c cp mx sess sid,
     getTTL h (OfCache c) sess sid =
     getTTL h (OfOptions {| checkPeriod := cp; max := mx; ttl := TtlVal VUndefined |})
       sess sid)
  /\ (let s := demo_sys None (TtlVal (VNumber 5000)) in
      MemoryStore.set (heap s) 0 "a" (VObject 3) (self s) =
        Normal (MemoryStore.with_store (self s)
                  (LRU.set 0 "a" (VObject 3) 5000 (MemoryStore.store (self s))))
      /\ MemoryStore.touch (heap s) 0 "a" (VObject 3) (self s) =
        Normal (MemoryStore.with_store (self s)
                  (LRU.set 0 "a" (VObject 3) 1000 (MemoryStore.store (self s))))).
Proof.
  split.
  - intros. reflexivity.
  - split; reflexivity.
Qed.

(** A throwing [set] or [touch] leaves the store as it was. *)
Lemma call_Set_throws s now sid sess e :
  getTTL (heap s) (OfOptions (MemoryStore.options (self s))) sess sid = Throw e ->
  call (Set_ now sid sess) s = (RThrow e, s).
Proof. intros H. simpl. unfold MemoryStore.set. rewrite H. reflexivity. Qed.

Lemma call_Touch_throws s now sid sess e :
  getTTL (heap s) (OfCache (MemoryStore.store (self s))) sess sid = Throw e ->
  call (Touch now sid sess) s = (RThrow e, s).
Proof. intros H. simpl. unfold MemoryStore.touch. rewrite H. reflexivity. Qed.

Lemma call_Set_resolves s now sid sess t :
  getTTL (heap s) (OfOptions (MemoryStore.options (self s))) sess sid = Normal t ->
  call (Set_ now sid sess) s =
    (RDone, with_self s (MemoryStore.with_store (self s)
                           (LRU.set now sid sess t (MemoryStore.store (self s))))).
Proof. intros H. simpl. unfold MemoryStore.set. rewrite H. reflexivity. Qed.

Lemma call_Touch_resolves s now sid sess t :
  getTTL (heap s) (OfCache (MemoryStore.store (self s))) sess sid = Normal t ->
  call (Touch now sid sess) s =
    (RDone, with_self s (MemoryStore.with_store (self s)
                           (LRU.set now sid sess t (MemoryStore.store (self s))))).
Proof. intros H. simpl. unfold MemoryStore.touch. rewrite H. reflexivity. Qed.

(** A falsy [ttl] option that is not a number is treated like a missing one. *)
Lemma getTTL_falsy_as_absent h cp mx v sess sid :
  typeof v ≠ TyNumber -> truthy v = false ->
  getTTL h (OfOptions {| checkPeriod := cp; max := mx; ttl := TtlVal v |}) sess sid =
  getTTL h (OfOptions {| checkPeriod := cp; max := mx; ttl := TtlVal VUndefined |}) sess sid.
Proof.
  intros Hty Hfalsy.
  rewrite (getTTL_fallback h _ v) by done.
  rewrite (getTTL_fallback h _ VUndefined) by done.
  reflexivity.
Qed.

(** C5, the claim as stated fails: [ttl: false] is present and is neither a
    number nor a function, yet [set] does not throw. *)
Lemma C5_counterexample :
  let t := TtlVal (VBool false) in
  t ≠ TtlVal VUndefined
  /\ typeof_ttl t ≠ TyNumber
  /\ typeof_ttl t ≠ TyFunction
  /\ fst (call (Set_ 0 "a" (VObject 1)) (demo_sys None t)) = RDone.
Proof. simpl. repeat split; discriminate || reflexivity. Qed.

(** C5 (amended): if the configured [ttl] option is truthy and is neither a
    number nor a function, [set] throws the TypeError at once and leaves
    the store unchanged. *)
Theorem C5_truthy_non_number_ttl_throws (s : Sys) (now : Z) (sid : string) (sess : Val) :
  typeof_ttl (ttl (MemoryStore.options (self s))) ≠ TyNumber ->
  typeof_ttl (ttl (MemoryStore.options (self s))) ≠ TyFunction ->
  truthy_ttl (ttl (MemoryStore.options (self s))) = true ->
  call (Set_ now sid sess) s =
    (RThrow (TypeError "`options.ttl` must be a number or function."), s).
Proof.
  intros Hnum Hfun Htruthy. apply call_Set_throws.
  destruct (ttl (MemoryStore.options (self s))) as [v|f] eqn:Httl; simpl in *.
  - apply (getTTL_truthy_other _ _ v); done.
  - congruence.
Qed.

Lemma C5_truthy_non_number_ttl_witness :
  call (Set_ 0 "a" (VObject 1)) (demo_sys None (TtlVal (VString "1 day"))) =
    (RThrow (TypeError "`options.ttl` must be a number or function."),
     demo_sys None (TtlVal (VString "1 day"))).
Proof.
  apply (C5_truthy_non_number_ttl_throws
           (demo_sys None (TtlVal (VString "1 day"))) 0 "a" (VObject 1)).
  - simpl. discriminate.
  - simpl. discriminate.
  - reflexivity.
Defined.

(** C9: with no [ttl] option, [set] and [touch] on a session without a
    [cookie] property throw a TypeError (the read [sess.cookie.maxAge] is
    unguarded) instead of falling back to a default TTL, and leave the
    store unchanged. *)
Theorem C9_session_without_cookie_throws (s : Sys) (now : Z) (sid : string) (sess : Val) :
  ttl (MemoryStore.options (self s)) = TtlVal VUndefined ->
  get_prop (heap s) sess "cookie" = Normal VUndefined ->
  exists msg,
    getTTL (heap s) (OfOptions (MemoryStore.options (self s))) sess sid
      = Throw (TypeError msg)
    /\ call (Set_ now sid sess) s = (RThrow (TypeError msg), s)
    /\ call (Touch now sid sess) s = (RThrow (TypeError msg), s).
Proof.
  intros Httl Hcookie.
  exists "Cannot read properties of undefined or null"%string.
  assert (forall o, prop_ttl o = TtlVal VUndefined ->
            getTTL (heap s) o sess sid =
              Throw (TypeError "Cannot read properties of undefined or null")) as Hthrow.
  { intros o Ho. rewrite (getTTL_fallback _ _ VUndefined) by done.
    rewrite Hcookie. reflexivity. }
  split; [|split].
  - apply Hthrow, Httl.
  - apply call_Set_throws, Hthrow, Httl.
  - apply call_Touch_throws, Hthrow. reflexivity.
Qed.

Lemma C9_session_without_cookie_witness :
  exists msg,
    getTTL demo_heap (OfOptions (MemoryStore.options (demo_self None (TtlVal VUndefined))))
      (VObject 5) "a" = Throw (TypeError msg)
    /\ call (Set_ 0 "a" (VObject 5)) (demo_sys None (TtlVal VUndefined))
       = (RThrow (TypeError msg), demo_sys None (TtlVal VUndefined))
    /\ call (Touch 0 "a" (VObject 5)) (demo_sys None (TtlVal VUndefined))
       = (RThrow (TypeError msg), demo_sys None (TtlVal VUndefined)).
Proof.
  apply (C9_session_without_cookie_throws (demo_sys None (TtlVal VUndefined))
           0 "a" (VObject 5)).
  - reflexivity.
  - reflexivity.
Defined.

(** ** The cache: lookup and removal *)
Section lru_lists.
Implicit Types (k : string) (e : LRU.Entry) (es : list LRU.Entry).

Lemma find_None k es :
  LRU.find k es = None <-> Forall (fun e => LRU.key e ≠ k) es.
Proof.
  unfold LRU.find, LRU.has_key. induction es as [|e es IH]; simpl.
  - split; [constructor | done].
  - rewrite Forall_cons. case_bool_decide; [|tauto].
    split; [done | intros [? _]; done].
Qed.

Lemma find_Some k es e :
  LRU.find k es = Some e -> e ∈ es /\ LRU.key e = k.
Proof.
  unfold LRU.find, LRU.has_key. induction es as [|e' es IH]; simpl; [done|].
  case_bool_decide.
  - intros [= <-]. split; [left | done].
  - intros H'. destruct (IH H') as [? ?]. split; [by right | done].
Qed.

Lemma find_cons k e es :
  LRU.find k (e :: es) = if decide (LRU.key e = k) then Some e else LRU.find k es.
Proof.
  unfold LRU.find, LRU.has_key. simpl.
  case_bool_decide; case_decide; done.
Qed.

Lemma remove_cons k e es :
  LRU.remove k (e :: es) =
    if decide (LRU.key e = k) then LRU.remove k es else e :: LRU.remove k es.
Proof.
  unfold LRU.remove. rewrite filter_cons.
  destruct (decide (LRU.key e ≠ k)), (decide (LRU.key e = k)); done.
Qed.

Lemma remove_absent k es : LRU.find k es = None -> LRU.remove k es = es.
Proof.
  rewrite find_None. induction 1 as [|e es He _ IH]; [done|].
  rewrite remove_cons, decide_False by done. by rewrite IH.
Qed.

Lemma find_remove_eq k es : LRU.find k (LRU.remove k es) = None.
Proof.
  apply find_None, Forall_forall. intros e.
  unfold LRU.remove. rewrite list_elem_of_filter. tauto.
Qed.

Lemma find_remove_ne k k' es :
  k ≠ k' -> LRU.find k (LRU.remove k' es) = LRU.find k es.
Proof.
  intros Hne. induction es as [|e es IH]; [done|].
  rewrite remove_cons. case_decide as Hk.
  - rewrite find_cons, decide_False by congruence. done.
  - rewrite !find_cons. case_decide; done.
Qed.

Lemma remove_idemp k es : LRU.remove k (LRU.remove k es) = LRU.remove k es.
Proof. apply remove_absent, find_remove_eq. Qed.

Lemma remove_sublist k es : LRU.remove k es `sublist_of` es.
Proof. apply sublist_filter. Qed.

Lemma live_sublist now es : LRU.live now es `sublist_of` es.
Proof. apply sublist_filter. Qed.

Lemma trim_sublist mx es : LRU.trim mx es `sublist_of` es.
Proof. destruct mx; simpl; [apply sublist_take | done]. Qed.

Lemma find_sublist_None k es es' :
  es' `sublist_of` es -> LRU.find k es = None -> LRU.find k es' = None.
Proof.
  rewrite !find_None, !Forall_forall. intros Hsub H e He.
  apply H. by eapply sublist_subseteq.
Qed.

End lru_lists.

(** ** Destroy *)

Lemma with_entries_id c : LRU.with_entries c (LRU.entries c) = c.
Proof. by destruct c. Qed.

Lemma with_store_id self : MemoryStore.with_store self (MemoryStore.store self) = self.
Proof. by destruct self. Qed.

Lemma with_self_id s : with_self s (self s) = s.
Proof. by destruct s. Qed.

Lemma del_absent k c : LRU.find k (LRU.entries c) = None -> LRU.del k c = c.
Proof.
  intros H. unfold LRU.del. rewrite remove_absent by done. apply with_entries_id.
Qed.

Lemma del_idemp k c : LRU.del k (LRU.del k c) = LRU.del k c.
Proof. apply del_absent. simpl. apply find_remove_eq. Qed.

Lemma filter_all {A} (P : A -> Prop) `{!forall x, Decision (P x)} (l : list A) :
  Forall P l -> filter P l = l.
Proof.
  induction 1 as [|x l Hx _ IH]; [done|].
  rewrite filter_cons, decide_True by done. by rewrite IH.
Qed.

Lemma filter_idemp {A} (P : A -> Prop) `{!forall x, Decision (P x)} (l : list A) :
  filter P (filter P l) = filter P l.
Proof.
  apply filter_all, Forall_forall. intros x. rewrite list_elem_of_filter. tauto.
Qed.

(** Deleting a batch keeps exactly the entries whose key is not in it. *)
Lemma del_many ks c :
  foldl (fun c s => LRU.del s c) c ks =
  LRU.with_entries c (filter (fun e => LRU.key e ∉ ks) (LRU.entries c)).
Proof.
  revert c. induction ks as [|k ks IH]; intros c; simpl.
  - rewrite filter_all; [by rewrite with_entries_id|].
    apply Forall_forall. intros e _. apply not_elem_of_nil.
  - rewrite IH. unfold LRU.del, LRU.with_entries, LRU.remove. simpl. f_equal.
    rewrite list_filter_filter. apply list_filter_iff.
    intros e. rewrite not_elem_of_cons. tauto.
Qed.

(** C8: [destroy] never throws; destroying keys that are not stored (one
    key or a batch) leaves the whole state unchanged; and destroying the
    same key or batch a second time changes nothing more. *)
Theorem C8_destroy_idempotent (s : Sys) (sid : MemoryStore.SidArg) :
  fst (call (Destroy sid) s) = RDone
  /\ (Forall (fun k => ¬ stored k s) (sids_of sid) ->
      snd (call (Destroy sid) s) = s)
  /\ snd (call (Destroy sid) (snd (call (Destroy sid) s))) = snd (call (Destroy sid) s).
Proof.
  split; [reflexivity|]. split.
  - intros Habsent. simpl.
    assert (MemoryStore.destroy sid (self s) = self s) as ->; [|apply with_self_id].
    assert (forall k, k ∈ sids_of sid ->
              LRU.find k (LRU.entries (MemoryStore.store (self s))) = None) as Hnone.
    { intros k Hk. rewrite Forall_forall in Habsent. specialize (Habsent k Hk).
      unfold stored in Habsent. by apply eq_None_not_Some. }
    destruct sid as [k|ks]; simpl in *.
    + rewrite del_absent; [apply with_store_id|]. apply Hnone. by left.
    + rewrite del_many, filter_all; [by rewrite with_entries_id, with_store_id|].
      apply Forall_forall. intros e He Hin.
      specialize (Hnone _ Hin). rewrite find_None, Forall_forall in Hnone.
      by apply (Hnone e).
  - destruct sid as [k|ks]; simpl.
    + by rewrite del_idemp.
    + rewrite !del_many. simpl. by rewrite filter_idemp.
Qed.

Lemma C8_destroy_idempotent_witness :
  let s := run (demo_sys None (TtlVal (VNumber 1000)))
             [Invoke (Set_ 0 "c" (VObject 1))] in
  let batch := MemoryStore.Many ["a"; "b"]%string in
  fst (call (Destroy batch) s) = RDone
  /\ snd (call (Destroy batch) s) = s
  /\ snd (call (Destroy batch) (snd (call (Destroy batch) s)))
     = snd (call (Destroy batch) s).
Proof.
  intros s batch.
  destruct (C8_destroy_idempotent s batch) as (Hok & Hsame & Hidem).
  split; [exact Hok|]. split; [|exact Hidem].
  apply Hsame. repeat constructor; intros [e He]; vm_compute in He; discriminate.
Defined.

(** ** What the store's operations leave alone *)

Lemma get_frame now sid self :
  MemoryStore.options (snd (MemoryStore.get now sid self)) = MemoryStore.options self
  /\ MemoryStore._checkInterval (snd (MemoryStore.get now sid self))
     = MemoryStore._checkInterval self
  /\ LRU.maxEntries (MemoryStore.store (snd (MemoryStore.get now sid self)))
     = LRU.maxEntries (MemoryStore.store self).
Proof.
  unfold MemoryStore.get, LRU.get.
  destruct (LRU.find _ _) as [e|]; [destruct (LRU.expired now e)|]; done.
Qed.

(** No call touches the host's timers, the interval handle, the options or
    the capacity of the cache. *)
Lemma call_frame c s :
  timers (snd (call c s)) = timers s
  /\ MemoryStore._checkInterval (self (snd (call c s)))
     = MemoryStore._checkInterval (self s)
  /\ MemoryStore.options (self (snd (call c s))) = MemoryStore.options (self s)
  /\ LRU.maxEntries (MemoryStore.store (self (snd (call c s))))
     = LRU.maxEntries (MemoryStore.store (self s)).
Proof.
  destruct c as [now sid|now sid sess|sid|now sid sess|now|now| |]; simpl; try done.
  - pose proof (get_frame now sid (self s)) as (? & ? & ?).
    destruct (MemoryStore.get now sid (self s)); done.
  - unfold MemoryStore.set. destruct (getTTL _ _ _ _); done.
  - destruct sid; simpl; rewrite ?del_many; done.
  - unfold MemoryStore.touch. destruct (getTTL _ _ _ _); done.
  - destruct (MemoryStore.all _ _ _); done.
Qed.

Lemma step_frame s ev :
  MemoryStore._checkInterval (self (step s ev)) = MemoryStore._checkInterval (self s)
  /\ MemoryStore.options (self (step s ev)) = MemoryStore.options (self s)
  /\ LRU.maxEntries (MemoryStore.store (self (step s ev)))
     = LRU.maxEntries (MemoryStore.store (self s)).
Proof.
  destruct ev as [c|handle now|handle|l p x]; simpl.
  - pose proof (call_frame c s). tauto.
  - unfold tick. destruct (_ && _); done.
  - done.
  - done.
Qed.

Lemma run_snoc s evs ev : run s (evs ++ [ev]) = step (run s evs) ev.
Proof. unfold run. apply foldl_snoc. Qed.

Lemma run_cons s ev evs : run s (ev :: evs) = run (step s ev) evs.
Proof. reflexivity. Qed.

Lemma run_frame s evs :
  MemoryStore._checkInterval (self (run s evs)) = MemoryStore._checkInterval (self s)
  /\ MemoryStore.options (self (run s evs)) = MemoryStore.options (self s)
  /\ LRU.maxEntries (MemoryStore.store (self (run s evs)))
     = LRU.maxEntries (MemoryStore.store (self s)).
Proof.
  induction evs as [|ev evs IH] using rev_ind; [done|].
  rewrite run_snoc.
  destruct IH as (? & ? & ?), (step_frame (run s evs) ev) as (? & ? & ?).
  repeat split; congruence.
Qed.

(** ** The sweeper *)

Lemma call_sweeper c s : sweeper_of (snd (call c s)) = sweeper_of s.
Proof.
  unfold sweeper_of. pose proof (call_frame c s) as (-> & -> & _). done.
Qed.

Lemma sweeper_Stopped tm handle : sweeper tm handle = Stopped <-> tm !! handle = None.
Proof.
  unfold sweeper. case_bool_decide as H.
  - split; [done|]. intros Hn. rewrite Hn in H. by destruct H.
  - split; [|done]. intros _. by apply eq_None_not_Some.
Qed.

Lemma tick_Stopped handle now s : sweeper_of s = Stopped -> tick handle now s = s.
Proof.
  unfold sweeper_of. rewrite sweeper_Stopped. intros Hn. unfold tick.
  case_bool_decide as Hh; [|done]. subst handle.
  rewrite bool_decide_eq_false_2; [done|]. rewrite Hn. by intros [? ?].
Qed.

Lemma step_Stopped s ev : sweeper_of s = Stopped -> sweeper_of (step s ev) = Stopped.
Proof.
  intros Hs. destruct ev as [c|handle now|handle|l p x]; simpl.
  - by rewrite call_sweeper.
  - by rewrite tick_Stopped.
  - revert Hs. unfold sweeper_of. rewrite !sweeper_Stopped. simpl.
    unfold clearInterval. intros Hs.
    destruct (decide (handle = MemoryStore._checkInterval (self s))) as [->|Hne].
    + apply lookup_delete_eq.
    + by rewrite lookup_delete_ne.
  - done.
Qed.

Lemma run_Stopped s evs : sweeper_of s = Stopped -> sweeper_of (run s evs) = Stopped.
Proof.
  intros Hs. induction evs as [|ev evs IH] using rev_ind; [done|].
  rewrite run_snoc. by apply step_Stopped.
Qed.

(** C2, the claim as stated fails: no operation of a running store stops
    its sweeper. *)
Lemma C2_counterexample :
  let s := demo_sys None (TtlVal VUndefined) in
  sweeper_of s = Running
  /\ ¬ exists c : Call, sweeper_of (snd (call c s)) = Stopped.
Proof.
  split; [reflexivity|]. intros [c Hc]. rewrite call_sweeper in Hc. discriminate.
Qed.

Lemma step_cancels_own s :
  sweeper_of (step s (ClearInterval (MemoryStore._checkInterval (self s)))) = Stopped.
Proof. unfold sweeper_of. apply sweeper_Stopped. simpl. apply lookup_delete_eq. Qed.

(** Nothing but the cancellation of the store's own interval changes the
    state of its sweeper: no call, no tick, no write by the caller and no
    cancellation of another interval. *)
Lemma step_sweeper_other s ev :
  ev ≠ ClearInterval (MemoryStore._checkInterval (self s)) ->
  sweeper_of (step s ev) = sweeper_of s.
Proof.
  intros Hother. destruct ev as [c|handle now|handle|l p x]; simpl.
  - apply call_sweeper.
  - unfold tick. by destruct (_ && _).
  - unfold sweeper_of, sweeper, clearInterval. simpl.
    rewrite lookup_delete_ne; [done|]. intros ->. by apply Hother.
  - done.
Qed.

Lemma cancels_own_or_not s ev :
  ev = ClearInterval (MemoryStore._checkInterval (self s))
  \/ ev ≠ ClearInterval (MemoryStore._checkInterval (self s)).
Proof.
  destruct ev as [c|handle now|handle|l p x]; try (right; discriminate).
  destruct (decide (handle = MemoryStore._checkInterval (self s))) as [->|Hne].
  - by left.
  - right. intros [= ->]. by apply Hne.
Qed.

(** A running sweeper is stopped at the end of a run exactly when the run
    cancels the store's own interval. *)
Lemma run_sweeper_Stopped_iff s evs :
  sweeper_of s = Running ->
  sweeper_of (run s evs) = Stopped
  <-> ClearInterval (MemoryStore._checkInterval (self s)) ∈ evs.
Proof.
  revert s. induction evs as [|ev evs IH]; intros s Hrun.
  - simpl. rewrite Hrun. split; [done | by intros ?%elem_of_nil].
  - rewrite run_cons, elem_of_cons.
    destruct (cancels_own_or_not s ev) as [->|Hother].
    + split; [by left|]. intros _. apply run_Stopped, step_cancels_own.
    + destruct (step_frame s ev) as (Hhandle & _).
      rewrite (IH (step s ev)), Hhandle by (by rewrite step_sweeper_other).
      split; [by right|]. by intros [?|?].
Qed.

(** C2 (amended): the sweeper is Stopped before the store is constructed
    and Running afterwards; every operation the store exposes leaves the
    sweeper as it is, so none is a shutdown; so does every tick, every
    write by the caller and every cancellation of another interval: a
    running sweeper is stopped after a run of events exactly when the run
    contains the host's cancellation of the interval kept in
    [_checkInterval]; after that cancellation the sweeper stays Stopped,
    no tick sweeps any more, and cancelling again changes nothing. *)
Theorem C2_sweeper_lifecycle :
  (forall h tm opts s,
     boot h tm opts = Normal s ->
     sweeper tm (MemoryStore._checkInterval (self s)) = Stopped
     /\ sweeper_of s = Running)
  /\ (forall s c, sweeper_of (snd (call c s)) = sweeper_of s)
  /\ (forall s ev,
        ev ≠ ClearInterval (MemoryStore._checkInterval (self s)) ->
        sweeper_of (step s ev) = sweeper_of s)
  /\ (forall s evs,
        sweeper_of s = Running ->
        sweeper_of (run s evs) = Stopped
        <-> ClearInterval (MemoryStore._checkInterval (self s)) ∈ evs)
  /\ (forall s,
        let cancel := ClearInterval (MemoryStore._checkInterval (self s)) in
        sweeper_of (step s cancel) = Stopped
        /\ (forall evs, sweeper_of (run (step s cancel) evs) = Stopped)
        /\ (forall evs handle now,
              tick handle now (run (step s cancel) evs) = run (step s cancel) evs)
        /\ step (step s cancel) cancel = step s cancel).
Proof.
  split; [|split; [|split; [|split]]].
  - intros h tm opts s Hboot. unfold boot in Hboot. simpl in Hboot.
    injection Hboot as <-. unfold sweeper_of. simpl. split.
    + apply sweeper_Stopped, not_elem_of_dom_1, is_fresh.
    + unfold sweeper. rewrite lookup_insert_eq.
      by rewrite bool_decide_eq_true_2.
  - intros s c. apply call_sweeper.
  - intros s ev. apply step_sweeper_other.
  - intros s evs. apply run_sweeper_Stopped_iff.
  - intros s cancel.
    pose proof (step_cancels_own s) as Hstop. fold cancel in Hstop.
    split; [done|]. split; [|split].
    + intros evs. by apply run_Stopped.
    + intros evs handle now. by apply tick_Stopped, run_Stopped.
    + simpl. unfold clearInterval. by rewrite delete_delete_eq.
Qed.

Lemma C2_sweeper_lifecycle_witness :
  let s := demo_sys None (TtlVal VUndefined) in
  let quiet := [Tick 0 5; Invoke Clear; ClearInterval 7; Assign 1 "x" VNull; Tick 0 9] in
  let busy := [Tick 0 5; Invoke Clear; ClearInterval 0; Tick 0 9] in
  (sweeper ∅ (MemoryStore._checkInterval (self s)) = Stopped
   /\ sweeper_of s = Running)
  /\ sweeper_of (step s (Tick 0 5)) = sweeper_of s
  /\ sweeper_of (step s (ClearInterval 7)) = sweeper_of s
  /\ (sweeper_of (run s quiet) = Stopped <-> ClearInterval 0 ∈ quiet)
  /\ (sweeper_of (run s busy) = Stopped <-> ClearInterval 0 ∈ busy).
Proof.
  intros s quiet busy.
  destruct C2_sweeper_lifecycle as (Hboot & _ & Hother & Honly & _).
  split; [|split; [|split; [|split]]].
  - apply (Hboot demo_heap ∅
             (Some {| checkPeriod := None; max := None; ttl := TtlVal VUndefined |})).
    reflexivity.
  - apply (Hother s (Tick 0 5)). discriminate.
  - apply (Hother s (ClearInterval 7)). discriminate.
  - apply (Honly s quiet). reflexivity.
  - apply (Honly s busy). reflexivity.
Defined.

(** ** Where entries come from *)

Lemma elem_of_trim e mx es : e ∈ LRU.trim mx es -> e ∈ es.
Proof. apply sublist_subseteq, trim_sublist. Qed.

Lemma elem_of_remove e k es : e ∈ LRU.remove k es -> e ∈ es.
Proof. apply sublist_subseteq, remove_sublist. Qed.

Lemma elem_of_set e now k v t c :
  e ∈ LRU.entries (LRU.set now k v t c) -> e ∈ LRU.entries c \/ LRU.key e = k.
Proof.
  simpl. intros He. apply elem_of_trim, elem_of_cons in He as [->|He].
  - by right.
  - left. by eapply elem_of_remove.
Qed.

Lemma elem_of_get e now k c :
  e ∈ LRU.entries (snd (LRU.get now k c)) -> e ∈ LRU.entries c.
Proof.
  unfold LRU.get. destruct (LRU.find k (LRU.entries c)) as [e'|] eqn:Hfind; [|done].
  destruct (LRU.expired now e'); simpl.
  - apply elem_of_remove.
  - intros [->|He]%elem_of_cons; [by apply find_Some in Hfind as [? _]|].
    by eapply elem_of_remove.
Qed.

(** An entry present after an event was present before it, unless the
    event is a [set] or [touch] of the entry's key. *)
Lemma step_entries s ev e :
  e ∈ entries_of (step s ev) -> e ∈ entries_of s \/ ¬ avoids (LRU.key e) ev.
Proof.
  destruct ev as [c|handle now|handle|l p x]; simpl.
  - destruct c as [now sid|now sid sess|sid|now sid sess|now|now| |]; simpl; auto.
    + unfold MemoryStore.get.
      pose proof (elem_of_get e now sid (MemoryStore.store (self s))) as Hget.
      destruct (LRU.get now sid (MemoryStore.store (self s))); simpl in *. auto.
    + unfold MemoryStore.set. destruct (getTTL _ _ _ _); simpl; [|auto].
      intros [?|?]%elem_of_set; [auto | right; auto].
    + destruct sid as [k|ks]; simpl.
      * intros ?%elem_of_remove. auto.
      * rewrite del_many. simpl. rewrite list_elem_of_filter. tauto.
    + unfold MemoryStore.touch. destruct (getTTL _ _ _ _); simpl; [|auto].
      intros [?|?]%elem_of_set; [auto | right; auto].
    + destruct (MemoryStore.all _ _ _); simpl. auto.
    + intros []%elem_of_nil.
  - unfold tick. destruct (_ && _); simpl; [|auto].
    unfold LRU.live. rewrite list_elem_of_filter. tauto.
  - auto.
  - auto.
Qed.

(** ** Reads of missing and expired keys *)

Lemma get_gone now k T c :
  gone_by k T (LRU.entries c) -> (T <= now)%Z -> fst (LRU.get now k c) = VUndefined.
Proof.
  intros Hgone HT. unfold LRU.get.
  destruct (LRU.find k (LRU.entries c)) as [e|] eqn:Hfind; [|done].
  apply find_Some in Hfind as [He Hk].
  specialize (Hgone e He Hk).
  assert (LRU.expired now e = true) as ->; [|done].
  unfold LRU.expired. apply Z.leb_le. lia.
Qed.

Lemma call_Get_gone now k T s :
  gone_by k T (entries_of s) -> (T <= now)%Z ->
  fst (call (Get now k) s) = RData VUndefined.
Proof.
  intros Hgone HT. simpl. unfold MemoryStore.get.
  pose proof (get_gone now k T _ Hgone HT) as Hget.
  destruct (LRU.get now k (MemoryStore.store (self s))); simpl in *. by subst.
Qed.

Lemma step_gone k T s ev :
  avoids k ev -> gone_by k T (entries_of s) -> gone_by k T (entries_of (step s ev)).
Proof.
  intros Hav Hgone e He Hk.
  apply step_entries in He as [He|Hno]; [by apply Hgone|].
  rewrite Hk in Hno. by destruct Hno.
Qed.

Lemma run_gone k T s evs :
  Forall (avoids k) evs -> gone_by k T (entries_of s) ->
  gone_by k T (entries_of (run s evs)).
Proof.
  intros Hav. revert s. induction Hav as [|ev evs Hev _ IH]; intros s Hgone; [done|].
  rewrite run_cons. by apply IH, step_gone.
Qed.

Lemma gone_by_absent k T es : LRU.find k es = None -> gone_by k T es.
Proof.
  rewrite find_None, Forall_forall. intros Hnone e He Hk. by destruct (Hnone e He).
Qed.

Lemma boot_entries h tm opts s : boot h tm opts = Normal s -> entries_of s = [].
Proof. unfold boot. simpl. by intros [= <-]. Qed.

(** C6: [get(k)] yields absent ([undefined]) when [k] was never set since
    the store was constructed, when [k] was destroyed (alone or in a
    batch), and when [k] was set at time [t0] with resolved TTL [t] and is
    read at a time [now] with [t0 + t <= now]; in each case whatever else
    happened in between that did not set or touch [k], with or without a
    sweep tick. *)
Theorem C6_get_absent (k : string) (now : Z) (evs : list Event) :
  Forall (avoids k) evs ->
  (forall h tm opts s,
     boot h tm opts = Normal s ->
     fst (call (Get now k) (run s evs)) = RData VUndefined)
  /\ (forall s sid,
        k ∈ sids_of sid ->
        fst (call (Get now k) (run (step s (Invoke (Destroy sid))) evs))
        = RData VUndefined)
  /\ (forall s t0 t sess,
        getTTL (heap s) (OfOptions (MemoryStore.options (self s))) sess k = Normal t ->
        (t0 + t <= now)%Z ->
        fst (call (Get now k) (run (step s (Invoke (Set_ t0 k sess))) evs))
        = RData VUndefined).
Proof.
  intros Hav. split; [|split].
  - intros h tm opts s Hboot.
    apply (call_Get_gone now k now); [|lia].
    apply run_gone; [done|]. rewrite (boot_entries _ _ _ _ Hboot).
    by apply gone_by_absent.
  - intros s sid Hin.
    apply (call_Get_gone now k now); [|lia].
    apply run_gone; [done|]. apply gone_by_absent, find_None, Forall_forall.
    intros e. simpl. destruct sid as [k'|ks]; simpl in *.
    + apply list_elem_of_singleton in Hin as ->.
      unfold LRU.remove. rewrite list_elem_of_filter. tauto.
    + rewrite del_many. simpl. rewrite list_elem_of_filter.
      intros [Hnot _] Hk. by rewrite Hk in Hnot.
  - intros s t0 t sess Httl Hlate.
    apply (call_Get_gone now k (t0 + t)); [|lia].
    apply run_gone; [done|].
    change (step s (Invoke (Set_ t0 k sess))) with (snd (call (Set_ t0 k sess) s)).
    rewrite (call_Set_resolves _ _ _ _ _ Httl). simpl.
    intros e [->|He]%elem_of_trim%elem_of_cons Hk.
    + unfold LRU.expiry. simpl. lia.
    + unfold LRU.remove in He. apply list_elem_of_filter in He as [Hne _].
      by destruct Hne.
Qed.

Lemma C6_get_absent_witness :
  let s := demo_sys None (TtlVal (VNumber 10)) in
  let evs := [Invoke (Set_ 3 "b" (VObject 1)); Invoke (Get 4 "a")] in
  fst (call (Get 15 "a") (run s evs)) = RData VUndefined
  /\ fst (call (Get 15 "a")
            (run (step (step s (Invoke (Set_ 0 "a" (VObject 1))))
                    (Invoke (Destroy (MemoryStore.One "a")))) evs))
     = RData VUndefined
  /\ fst (call (Get 15 "a") (run (step s (Invoke (Set_ 0 "a" (VObject 1)))) evs))
     = RData VUndefined.
Proof.
  intros s evs.
  assert (Forall (avoids "a") evs) as Hav.
  { repeat constructor. simpl. discriminate. }
  destruct (C6_get_absent "a" 15 evs Hav) as (Hnever & Hdeleted & Helapsed).
  split; [|split].
  - apply (Hnever demo_heap ∅
             (Some {| checkPeriod := None; max := None; ttl := TtlVal (VNumber 10) |})).
    reflexivity.
  - apply (Hdeleted (step s (Invoke (Set_ 0 "a" (VObject 1)))) (MemoryStore.One "a")).
    simpl. by left.
  - apply (Helapsed s 0%Z 10%Z (VObject 1)).
    + reflexivity.
    + lia.
Defined.

(** ** Replacement *)

Lemma reachable_capacity s :
  reachable s -> LRU.maxEntries (MemoryStore.store (self s)) ≠ Finite 0.
Proof.
  intros (h & tm & opts & s0 & evs & Hboot & ->).
  destruct (run_frame s0 evs) as (_ & _ & ->).
  unfold boot in Hboot. simpl in Hboot. injection Hboot as <-. simpl.
  destruct (max (default no_options opts)) as [[[|n]|]|]; done.
Qed.

Lemma trim_cons mx e es :
  mx ≠ Finite 0 -> exists es', LRU.trim mx (e :: es) = e :: es' /\ es' `sublist_of` es.
Proof.
  intros Hmx. destruct mx as [[|n]|]; simpl; [done| |].
  - eexists. split; [done|]. apply sublist_take.
  - by eexists.
Qed.

Lemma get_found now k c e :
  LRU.find k (LRU.entries c) = Some e ->
  fst (LRU.get now k c) = if (now <? LRU.expiry e)%Z then LRU.value e else VUndefined.
Proof.
  intros Hfind. unfold LRU.get, LRU.expired. rewrite Hfind.
  destruct (Z.leb_spec (LRU.expiry e) now), (Z.ltb_spec now (LRU.expiry e));
    simpl; done || lia.
Qed.

(** C7: after [set(k, v1)] at time [n1] and [set(k, v2)] at time [n2], with
    resolved TTLs [t1] and [t2], the one entry under [k] holds [v2], was
    inserted at [n2] and lives for [t2]; so [get(k)] yields [v2] up to the
    expiry time [n2 + t2], which owes nothing to [n1] or [t1], and absent
    from then on. *)
Theorem C7_replacement_refreshes
    (s : Sys) (k : string) (v1 v2 : Val) (n1 n2 t1 t2 now : Z) :
  reachable s ->
  getTTL (heap s) (OfOptions (MemoryStore.options (self s))) v1 k = Normal t1 ->
  getTTL (heap s) (OfOptions (MemoryStore.options (self s))) v2 k = Normal t2 ->
  let s2 := run s [Invoke (Set_ n1 k v1); Invoke (Set_ n2 k v2)] in
  let e2 := {| LRU.key := k; LRU.value := v2;
               LRU.insertedOrUpdatedAt := n2; LRU.ttlMillis := t2 |} in
  (exists es, entries_of s2 = e2 :: es /\ LRU.find k es = None)
  /\ LRU.expiry e2 = (n2 + t2)%Z
  /\ fst (call (Get now k) s2) = RData (if (now <? n2 + t2)%Z then v2 else VUndefined).
Proof.
  intros Hreach Ht1 Ht2 s2 e2.
  pose proof (reachable_capacity s Hreach) as Hcap.
  assert (exists es, entries_of s2 = e2 :: es /\ LRU.find k es = None) as Hentries.
  { subst s2.
    assert (run s [Invoke (Set_ n1 k v1); Invoke (Set_ n2 k v2)]
            = snd (call (Set_ n2 k v2) (snd (call (Set_ n1 k v1) s)))) as ->
      by reflexivity.
    rewrite (call_Set_resolves _ _ _ _ _ Ht1). cbn [snd].
    set (s1 := with_self s _).
    rewrite (call_Set_resolves s1 n2 k v2 t2) by exact Ht2. simpl.
    destruct (trim_cons (LRU.maxEntries (MemoryStore.store (self s))) e2
                (LRU.remove k
                   (LRU.trim (LRU.maxEntries (MemoryStore.store (self s)))
                      ({| LRU.key := k; LRU.value := v1;
                          LRU.insertedOrUpdatedAt := n1; LRU.ttlMillis := t1 |}
                       :: LRU.remove k (entries_of s)))) Hcap)
      as (es & Hes & Hsub).
    exists es. split; [exact Hes|].
    eapply find_sublist_None; [exact Hsub|]. apply find_remove_eq. }
  split; [exact Hentries|]. split; [reflexivity|].
  destruct Hentries as (es & Hes & _).
  simpl. unfold MemoryStore.get.
  pose proof (get_found now k (MemoryStore.store (self s2)) e2) as Hget.
  rewrite Hes, find_cons, decide_True in Hget by done.
  specialize (Hget eq_refl).
  destruct (LRU.get now k (MemoryStore.store (self s2))). simpl in *. by subst.
Qed.

Lemma C7_replacement_refreshes_witness :
  let s := demo_sys (Some (Finite 2)) (TtlFunction (fun _ _ sess _ =>
             match sess with VObject 1 => 100%Z | _ => 500%Z end)) in
  let s2 := run s [Invoke (Set_ 0 "k" (VObject 1)); Invoke (Set_ 50 "k" (VObject 3))] in
  let e2 := {| LRU.key := "k"; LRU.value := VObject 3;
               LRU.insertedOrUpdatedAt := 50; LRU.ttlMillis := 500 |} in
  (exists es, entries_of s2 = e2 :: es /\ LRU.find "k" es = None)
  /\ LRU.expiry e2 = (50 + 500)%Z
  /\ fst (call (Get 120 "k") s2) = RData (if (120 <? 50 + 500)%Z then VObject 3 else VUndefined).
Proof.
  intros s.
  apply (C7_replacement_refreshes s "k" (VObject 1) (VObject 3) 0 50 100 500 120).
  - apply demo_sys_reachable.
  - reflexivity.
  - reflexivity.
Defined.

(** ** Enumeration *)
Section all_loop.
Implicit Types (h : Heap) (es : list LRU.Entry) (l : loc).

Lemma all_loop_result h es r h' vs :
  MemoryStore.all_loop h es r = (h', Normal vs) -> vs = r ++ map LRU.value es.
Proof.
  revert h r. induction es as [|e es IH]; intros h r; simpl.
  - intros [= _ <-]. by rewrite app_nil_r.
  - destruct (set_prop h (LRU.value e) "id" (VString (LRU.key e))); [|done].
    intros ->%IH. by rewrite <- app_assoc.
Qed.

(** The loop leaves alone every object that no visited entry holds. *)
Lemma all_loop_frame h es r h' res l :
  MemoryStore.all_loop h es r = (h', res) ->
  Forall (fun e => LRU.value e ≠ VObject l) es ->
  h' !! l = h !! l.
Proof.
  intros Hloop Hnot. revert h r Hloop.
  induction Hnot as [|e es He _ IH]; intros h r; simpl.
  - by intros [= <- _].
  - destruct (LRU.value e) as [| | | | |l'] eqn:Hv; simpl;
      try (by intros [= <- _]); try (by intros ?%IH).
    intros ->%IH. apply lookup_insert_ne. congruence.
Qed.

(** When the entries that hold the object at [l] all have key [k], and
    there is one, the loop leaves [id = k] on that object. *)
Lemma all_loop_assigns h es r h' vs l k :
  MemoryStore.all_loop h es r = (h', Normal vs) ->
  (forall e, e ∈ es -> LRU.value e = VObject l -> LRU.key e = k) ->
  Exists (fun e => LRU.value e = VObject l) es ->
  get_prop h' (VObject l) "id" = Normal (VString k).
Proof.
  revert h r. induction es as [|e es IH]; intros h r Hloop Hkeys Hex.
  - by apply Exists_nil in Hex.
  - simpl in Hloop.
    destruct (set_prop h (LRU.value e) "id" (VString (LRU.key e))) as [h1|] eqn:Hset;
      [|done].
    destruct (decide (Exists (fun e => LRU.value e = VObject l) es)) as [Hlater|Hnone].
    + apply (IH h1 _ Hloop); [|done]. intros e' He'. apply Hkeys. by right.
    + apply Exists_cons in Hex as [Hv|]; [|done].
      rewrite (Hkeys e) in Hset by (done || by left).
      rewrite Hv in Hset. simpl in Hset. injection Hset as <-.
      apply not_Exists_Forall in Hnone; [|intros ?; apply _].
      assert (Forall (fun e => LRU.value e ≠ VObject l) es) as Hnot.
      { eapply Forall_impl; [exact Hnone|]. simpl. auto. }
      simpl. rewrite (all_loop_frame _ _ _ _ _ l Hloop Hnot).
      rewrite lookup_insert_eq. simpl. by rewrite lookup_insert_eq.
Qed.

End all_loop.

Lemma get_hit now k c v :
  fst (LRU.get now k c) = v -> v ≠ VUndefined ->
  exists e, e ∈ LRU.entries c /\ LRU.key e = k /\ LRU.value e = v
            /\ LRU.expired now e = false.
Proof.
  unfold LRU.get. destruct (LRU.find k (LRU.entries c)) as [e|] eqn:Hfind; [|done].
  destruct (LRU.expired now e) eqn:Hexp; simpl; [done|].
  intros <- _. apply find_Some in Hfind as [? ?]. by exists e.
Qed.

Lemma expired_mono now now' e :
  (now <= now')%Z -> LRU.expired now' e = false -> LRU.expired now e = false.
Proof. unfold LRU.expired. rewrite !Z.leb_gt. lia. Qed.

(** C10, the claim as stated fails: one session object stored under "a" and
    under "b" carries a single [id]; after [all], [get("b")] returns it
    with [id] "a". *)
Lemma C10_counterexample :
  let s := run (demo_sys None (TtlVal VUndefined))
             [Invoke (Set_ 0 "a" (VObject 1)); Invoke (Set_ 1 "b" (VObject 1));
              Invoke (All 2)] in
  fst (call (Get 3 "b") s) = RData (VObject 1)
  /\ get_prop (heap s) (VObject 1) "id" = Normal (VString "a")
  /\ VString "a" ≠ VString "b".
Proof.
  split; [vm_compute; reflexivity|].
  split; [vm_compute; reflexivity | discriminate].
Qed.

(** C10 (amended): [all] writes into the stored session objects
    themselves: when it completes it returns the live values and leaves the
    store's entries as they were, and a session object that [get(k)] then
    returns carries [id = k], provided no live entry under another key
    holds that same object. *)
Theorem C10_all_assigns_ids
    (s : Sys) (now now' : Z) (k : string) (l : loc) (vs : list Val) :
  fst (call (All now) s) = RSessions vs ->
  (now <= now')%Z ->
  fst (call (Get now' k) (snd (call (All now) s))) = RData (VObject l) ->
  (forall e, e ∈ LRU.forEach now (MemoryStore.store (self s)) ->
             LRU.value e = VObject l -> LRU.key e = k) ->
  vs = map LRU.value (LRU.forEach now (MemoryStore.store (self s)))
  /\ self (snd (call (All now) s)) = self s
  /\ get_prop (heap (snd (call (All now) s))) (VObject l) "id" = Normal (VString k).
Proof.
  simpl. unfold MemoryStore.all.
  destruct (MemoryStore.all_loop _ _ _) as [h' [vs'|err]] eqn:Hloop; simpl; [|done].
  intros [= ->] Hnow Hget Hkeys.
  split; [by apply all_loop_result in Hloop|]. split; [done|].
  unfold MemoryStore.get in Hget.
  pose proof (get_hit now' k (MemoryStore.store (self s)) (VObject l)) as Hhit.
  destruct (LRU.get now' k (MemoryStore.store (self s))) as [v c]. simpl in *.
  injection Hget as ->.
  destruct (Hhit eq_refl) as (e & He & Hk & Hv & Hexp); [done|].
  apply (all_loop_assigns _ _ _ _ _ _ _ Hloop Hkeys).
  apply Exists_exists. exists e. split; [|done].
  unfold LRU.forEach, LRU.live. apply list_elem_of_filter. split; [|done].
  by eapply expired_mono.
Qed.

Lemma C10_all_assigns_ids_witness :
  let s := run (demo_sys None (TtlVal VUndefined))
             [Invoke (Set_ 0 "a" (VObject 1)); Invoke (Set_ 1 "b" (VObject 3))] in
  [VObject 3; VObject 1] = map LRU.value (LRU.forEach 2 (MemoryStore.store (self s)))
  /\ self (snd (call (All 2) s)) = self s
  /\ get_prop (heap (snd (call (All 2) s))) (VObject 3) "id" = Normal (VString "b").
Proof.
  intros s.
  apply (C10_all_assigns_ids s 2 3 "b" 3 [VObject 3; VObject 1]).
  - vm_compute. reflexivity.
  - lia.
  - vm_compute. reflexivity.
  - intros e He Hv. vm_compute in He.
    apply elem_of_cons in He as [->|He]; [reflexivity|].
    apply elem_of_cons in He as [->|He]; [discriminate Hv|].
    by apply elem_of_nil in He.
Defined.

(** ** Capacity *)

Lemma length_remove_found k e es :
  e ∈ es -> LRU.key e = k -> S (length (LRU.remove k es)) <= length es.
Proof.
  intros He Hk. unfold LRU.remove.
  pose proof (length_filter_lt (fun e => LRU.key e ≠ k) es e He) as Hlt.
  apply Hlt. intros Hne. by apply Hne.
Qed.

Lemma within_sublist (es es' : list LRU.Entry) mx :
  es' `sublist_of` es -> within (length es) mx -> within (length es') mx.
Proof.
  intros Hsub%sublist_length. destruct mx; simpl; [lia | done].
Qed.

Lemma within_trim mx (es : list LRU.Entry) : within (length (LRU.trim mx es)) mx.
Proof. destruct mx; simpl; [rewrite length_take; lia | done]. Qed.

Lemma get_within now k c : within_capacity c -> within_capacity (snd (LRU.get now k c)).
Proof.
  unfold within_capacity, LRU.itemCount, LRU.get. intros Hc.
  destruct (LRU.find k (LRU.entries c)) as [e|] eqn:Hfind; [|done].
  apply find_Some in Hfind as [He Hk].
  pose proof (length_remove_found k e _ He Hk) as Hlen.
  destruct (LRU.expired now e); simpl in *;
    destruct (LRU.maxEntries c); simpl in *; lia || done.
Qed.

Lemma step_within s ev :
  within_capacity (MemoryStore.store (self s)) ->
  within_capacity (MemoryStore.store (self (step s ev))).
Proof.
  unfold within_capacity, LRU.itemCount. intros Hc.
  destruct ev as [c|handle now|handle|l p x]; simpl; try done.
  - destruct c as [now sid|now sid sess|sid|now sid sess|now|now| |]; simpl; try done.
    + unfold MemoryStore.get.
      pose proof (get_within now sid _ Hc) as Hget.
      destruct (LRU.get now sid (MemoryStore.store (self s))); done.
    + unfold MemoryStore.set. destruct (getTTL _ _ _ _); simpl; [|done].
      apply within_trim.
    + destruct sid as [k|ks]; simpl; rewrite ?del_many; simpl;
        (eapply within_sublist; [|exact Hc]); [apply remove_sublist | apply sublist_filter].
    + unfold MemoryStore.touch. destruct (getTTL _ _ _ _); simpl; [|done].
      apply within_trim.
    + destruct (MemoryStore.all _ _ _); done.
    + destruct (LRU.maxEntries _); simpl; [lia | done].
  - unfold tick. destruct (_ && _); simpl; [|done].
    eapply within_sublist; [apply live_sublist | exact Hc].
Qed.

Lemma run_within s evs :
  within_capacity (MemoryStore.store (self s)) ->
  within_capacity (MemoryStore.store (self (run s evs))).
Proof.
  revert s. induction evs as [|ev evs IH]; intros s Hc; [done|].
  rewrite run_cons. by apply IH, step_within.
Qed.

(** ** Order of use *)
Section use_order.
Implicit Types (k : string) (log : list string) (e : LRU.Entry) (es : list LRU.Entry).

Lemma sorted_sublist {A} (R : relation A) (l l' : list A) :
  l' `sublist_of` l -> StronglySorted R l -> StronglySorted R l'.
Proof.
  induction 1 as [|x l1 l2 Hsub IH|x l1 l2 Hsub IH]; rewrite ?StronglySorted_cons.
  - done.
  - intros [Hall Hs]. split; [|by apply IH].
    rewrite Forall_forall in *. intros y Hy. apply Hall.
    by eapply sublist_subseteq.
  - intros [_ Hs]. by apply IH.
Qed.

Lemma in_use_order_sublist log es es' :
  es' `sublist_of` es -> in_use_order log es -> in_use_order log es'.
Proof.
  intros Hsub [Hs Hin]. split.
  - by eapply sorted_sublist.
  - rewrite Forall_forall in *. intros e He. apply Hin. by eapply sublist_subseteq.
Qed.

Lemma rank_head k log : rank k (k :: log) = 0.
Proof. simpl. by rewrite decide_True. Qed.

Lemma rank_tail k k' log : k' ≠ k -> rank k (k' :: log) = S (rank k log).
Proof. intros. simpl. by rewrite decide_False. Qed.

(** Using [k] puts its entry in front of all others. *)
Lemma in_use_order_use log es e :
  in_use_order log es ->
  in_use_order (LRU.key e :: log) (e :: LRU.remove (LRU.key e) es).
Proof.
  intros Hord.
  apply (in_use_order_sublist _ _ _ (remove_sublist (LRU.key e) es)) in Hord
    as [Hs Hin].
  assert (Forall (fun e' => LRU.key e' ≠ LRU.key e) (LRU.remove (LRU.key e) es))
    as Hne.
  { apply Forall_forall. intros e'. unfold LRU.remove.
    rewrite list_elem_of_filter. tauto. }
  split.
  - apply StronglySorted_cons. split.
    + eapply Forall_impl; [exact Hne|]. intros e' He'. unfold more_recent.
      rewrite rank_head, rank_tail by done. lia.
    + induction Hs as [|e1 es1 Hs1 IH Hall]; [constructor|].
      apply Forall_cons in Hne as [Hne1 Hnes], Hin as [_ Hin1].
      constructor; [by apply IH|].
      rewrite Forall_forall in *. intros e2 He2. unfold more_recent.
      rewrite (rank_tail (LRU.key e1) (LRU.key e) log) by congruence.
      rewrite (rank_tail (LRU.key e2) (LRU.key e) log)
        by (specialize (Hnes e2 He2); congruence).
      specialize (Hall e2 He2). unfold more_recent in Hall. lia.
  - constructor; [by left|].
    eapply Forall_impl; [exact Hin|]. intros e' He'. by right.
Qed.

End use_order.

Lemma step_use_order log s ev :
  in_use_order log (entries_of s) ->
  in_use_order (from_option (fun k => k :: log) log (used_key s ev))
    (entries_of (step s ev)).
Proof.
  intros Hord.
  destruct ev as [c|handle now|handle|l p x]; simpl; try done.
  - destruct c as [now sid|now sid sess|sid|now sid sess|now|now| |]; simpl; try done.
    + unfold MemoryStore.get, LRU.get.
      destruct (LRU.find sid (entries_of s)) as [e|] eqn:Hfind; [|done].
      apply find_Some in Hfind as [_ <-].
      destruct (LRU.expired now e); simpl.
      * eapply in_use_order_sublist; [apply remove_sublist | done].
      * by apply in_use_order_use.
    + unfold MemoryStore.set. destruct (getTTL _ _ _ _) as [t|]; simpl; [|done].
      eapply in_use_order_sublist; [apply trim_sublist|].
      by apply (in_use_order_use log _
                  {| LRU.key := sid; LRU.value := sess;
                     LRU.insertedOrUpdatedAt := now; LRU.ttlMillis := t |}).
    + destruct sid as [k|ks]; simpl; rewrite ?del_many; simpl;
        (eapply in_use_order_sublist; [|exact Hord]);
        [apply remove_sublist | apply sublist_filter].
    + unfold MemoryStore.touch. destruct (getTTL _ _ _ _) as [t|]; simpl; [|done].
      eapply in_use_order_sublist; [apply trim_sublist|].
      by apply (in_use_order_use log _
                  {| LRU.key := sid; LRU.value := sess;
                     LRU.insertedOrUpdatedAt := now; LRU.ttlMillis := t |}).
    + destruct (MemoryStore.all _ _ _); done.
    + split; constructor.
  - unfold tick. destruct (_ && _); simpl; [|done].
    eapply in_use_order_sublist; [apply live_sublist | done].
Qed.

Lemma run_use_order log s evs :
  in_use_order log (entries_of s) ->
  in_use_order (uses_from log s evs) (entries_of (run s evs)).
Proof.
  revert log s. induction evs as [|ev evs IH]; intros log s Hord; [done|].
  rewrite run_cons. simpl. by apply IH, step_use_order.
Qed.

Lemma boot_capacity h tm cp mx t s :
  boot h tm (Some {| checkPeriod := cp; max := mx; ttl := t |}) = Normal s ->
  LRU.maxEntries (MemoryStore.store (self s)) = MemoryStore.or_Infinity mx.
Proof. unfold boot. simpl. by intros [= <-]. Qed.

(** C4, the claim as stated fails at [N = 0]: [max: 0] is replaced by
    [Infinity] ([options.max || Infinity]), so the store is unbounded and
    holds one entry after one [set]. *)
Lemma C4_counterexample :
  exists s,
    boot demo_heap ∅
      (Some {| checkPeriod := None; max := Some (Finite 0); ttl := TtlVal VUndefined |})
    = Normal s
    /\ ¬ MemoryStore.length (self (run s [Invoke (Set_ 0 "a" (VObject 1))])) <= 0
    /\ ¬ length (MemoryStore.ids 1 (self (run s [Invoke (Set_ 0 "a" (VObject 1))]))) <= 0.
Proof.
  eexists. split; [reflexivity|]. split; vm_compute; lia.
Qed.

(** C4 (amended): for a store constructed with a max entry count [N >= 1],
    after any sequence of calls and ticks the number of stored entries, and
    so the number of live ones, is at most [N]; and when a [set] of a key
    that is not stored finds the store full, the new entry goes in front
    and exactly the last entry is dropped, which is the least recently
    used: every other stored key was set or read more recently. *)
Theorem C4_capacity_and_lru
    (N : nat) (h : Heap) (tm : gmap nat Z) (cp : option Z) (t : TtlOption)
    (s0 : Sys) (evs : list Event) :
  0 < N ->
  boot h tm (Some {| checkPeriod := cp; max := Some (Finite N); ttl := t |})
    = Normal s0 ->
  MemoryStore.length (self (run s0 evs)) <= N
  /\ (forall now, length (MemoryStore.ids now (self (run s0 evs))) <= N)
  /\ (forall now sid sess self',
        MemoryStore.set (heap (run s0 evs)) now sid sess (self (run s0 evs))
          = Normal self' ->
        ¬ stored sid (run s0 evs) ->
        MemoryStore.length (self (run s0 evs)) = N ->
        exists es lru new,
          entries_of (run s0 evs) = es ++ [lru]
          /\ LRU.entries (MemoryStore.store self') = new :: es
          /\ LRU.key new = sid
          /\ LRU.value new = sess
          /\ LRU.key lru ∈ uses s0 evs
          /\ forall e, e ∈ es -> more_recent (uses s0 evs) (LRU.key e) (LRU.key lru)).
Proof.
  intros HN Hboot.
  pose proof (boot_capacity _ _ _ _ _ _ Hboot) as Hmax0.
  pose proof (boot_entries _ _ _ _ Hboot) as Hentries0.
  assert (LRU.maxEntries (MemoryStore.store (self (run s0 evs))) = Finite N) as Hmax.
  { destruct (run_frame s0 evs) as (_ & _ & ->). rewrite Hmax0.
    destruct N; [lia | done]. }
  assert (length (entries_of (run s0 evs)) <= N) as Hlen.
  { pose proof (run_within s0 evs) as Hw.
    unfold within_capacity, LRU.itemCount in Hw.
    rewrite Hmax, Hentries0 in Hw. simpl in Hw. apply Hw.
    destruct (LRU.maxEntries _); simpl; [lia | done]. }
  assert (in_use_order (uses s0 evs) (entries_of (run s0 evs))) as [Hsorted Hused].
  { apply run_use_order. rewrite Hentries0. split; constructor. }
  split; [exact Hlen|]. split.
  - intros now. unfold MemoryStore.ids, LRU.keys. rewrite length_map.
    pose proof (sublist_length _ _ (live_sublist now (entries_of (run s0 evs)))). lia.
  - intros now sid sess self' Hset Hnew Hfull.
    unfold MemoryStore.length, LRU.itemCount in Hfull.
    destruct (entries_of (run s0 evs)) as [|lru es _] eqn:Hes using rev_ind;
      [simpl in Hfull; lia|].
    unfold MemoryStore.set in Hset.
    destruct (getTTL _ _ _ _) as [ttl|]; [|done]. simpl in Hset.
    injection Hset as <-. simpl.
    exists es, lru,
      {| LRU.key := sid; LRU.value := sess;
         LRU.insertedOrUpdatedAt := now; LRU.ttlMillis := ttl |}.
    split; [done|].
    rewrite length_app in Hfull. simpl in Hfull.
    split; [|split; [done|split; [done|split]]].
    + rewrite Hmax, Hes. simpl.
      rewrite remove_absent.
      * destruct N as [|n]; [lia|]. simpl. f_equal.
        apply take_app_length'. lia.
      * apply eq_None_not_Some. rewrite <- Hes. exact Hnew.
    + apply Forall_app in Hused as [_ Hlru].
      exact (proj1 (Forall_singleton _ _) Hlru).
    + intros e He.
      apply (StronglySorted_app_1_elem_of _ es [lru] e lru Hsorted He). by left.
Qed.

Lemma C4_capacity_and_lru_witness :
  let s0 := demo_sys (Some (Finite 2)) (TtlVal VUndefined) in
  let evs := [Invoke (Set_ 0 "a" (VObject 1)); Invoke (Set_ 1 "b" (VObject 3));
              Invoke (Get 2 "a")] in
  let self' := MemoryStore.with_store (self (run s0 evs))
                 (LRU.set 3 "c" (VObject 1) 3600000
                    (MemoryStore.store (self (run s0 evs)))) in
  MemoryStore.length (self (run s0 evs)) <= 2
  /\ (forall now, length (MemoryStore.ids now (self (run s0 evs))) <= 2)
  /\ exists es lru new,
       entries_of (run s0 evs) = es ++ [lru]
       /\ LRU.entries (MemoryStore.store self') = new :: es
       /\ LRU.key new = "c"%string
       /\ LRU.value new = VObject 1
       /\ LRU.key lru ∈ uses s0 evs
       /\ forall e, e ∈ es -> more_recent (uses s0 evs) (LRU.key e) (LRU.key lru).
Proof.
  intros s0 evs self'.
  destruct (C4_capacity_and_lru 2 demo_heap ∅ None (TtlVal VUndefined) s0 evs)
    as (Hcap & Hlive & Hevict).
  - lia.
  - reflexivity.
  - split; [exact Hcap|]. split; [exact Hlive|].
    apply (Hevict 3%Z "c"%string (VObject 1) self').
    + vm_compute. reflexivity.
    + intros [e He]. vm_compute in He. discriminate.
    + reflexivity.
Defined.

(** * Further properties of the store *)

(** ** When TTL resolution throws *)

Lemma get_prop_throws h v p : is_Normal (get_prop h v p) = negb (nullish v).
Proof. by destruct v. Qed.

Lemma ttl_unset_inv t :
  ttl_unset t -> exists v, t = TtlVal v /\ typeof v ≠ TyNumber /\ truthy v = false.
Proof. intros [Hf Hn]. destruct t as [v|f]; [by exists v | done]. Qed.

Lemma getTTL_unset h o sess sid :
  ttl_unset (prop_ttl o) ->
  getTTL h o sess sid =
    cookie ← get_prop h sess "cookie";
    maxAge ← get_prop h cookie "maxAge";
    Normal (match maxAge with VNumber n => Math_floor n | _ => oneDay end).
Proof.
  intros (v & Hv & Hty & Hfalsy)%ttl_unset_inv. by apply (getTTL_fallback h o v).
Qed.

Lemma fallback_throws_iff h sess (k : Val -> Z) :
  is_Normal (cookie ← get_prop h sess "cookie";
             maxAge ← get_prop h cookie "maxAge";
             Normal (k maxAge)) = false
  <-> nullish sess = true
      \/ exists cookie, get_prop h sess "cookie" = Normal cookie /\ nullish cookie = true.
Proof.
  destruct (get_prop h sess "cookie") as [c|e] eqn:Hc; simpl.
  - destruct (get_prop h c "maxAge") as [m|e] eqn:Hm; simpl.
    + split; [done|]. intros [Hs|(c' & [= <-] & Hn)].
      * by destruct sess.
      * by destruct c.
    + split; [intros _|done]. right. exists c. split; [done|]. by destruct c.
  - split; [intros _|done]. left. by destruct sess.
Qed.

(** When the [ttl] option is not a function, [getTTL] throws in exactly two
    situations: the option is truthy without being a number; or it is
    falsy and not a number while the session, or the session's [cookie],
    is [undefined] or [null].  With a number configured it never throws,
    whatever the session is. *)
Theorem getTTL_throws_iff (h : Heap) (o : OptionsLike) (sess : Val) (sid : string) :
  typeof_ttl (prop_ttl o) ≠ TyFunction ->
  is_Normal (getTTL h o sess sid) = false <->
  typeof_ttl (prop_ttl o) ≠ TyNumber
  /\ (truthy_ttl (prop_ttl o) = true
      \/ nullish sess = true
      \/ exists cookie, get_prop h sess "cookie" = Normal cookie /\ nullish cookie = true).
Proof.
  intros Hfun. destruct (prop_ttl o) as [v|f] eqn:Ho; [|done].
  assert (typeof v = TyNumber \/ typeof v ≠ TyNumber) as [Hnum|Hnum]
    by (destruct v; simpl; auto; right; discriminate).
  - destruct v; try done. rewrite (getTTL_number _ _ n) by done. simpl.
    split; [done | intros [? _]; done].
  - destruct (truthy v) eqn:Htruthy.
    + rewrite (getTTL_truthy_other _ _ v) by done. simpl.
      split; [intros _|done]. split; [done | by left].
    + rewrite (getTTL_fallback _ _ v) by done.
      rewrite (fallback_throws_iff h sess
                 (fun m => match m with VNumber n => Math_floor n | _ => oneDay end)).
      simpl. rewrite Htruthy. split; [intros H; auto | intros (_ & [?|?]); done].
Qed.

Lemma getTTL_throws_iff_witness :
  let o := OfOptions (MemoryStore.options (demo_self None (TtlVal VUndefined))) in
  is_Normal (getTTL demo_heap o (VObject 5) "a") = false <->
  typeof_ttl (prop_ttl o) ≠ TyNumber
  /\ (truthy_ttl (prop_ttl o) = true
      \/ nullish (VObject 5) = true
      \/ exists cookie,
           get_prop demo_heap (VObject 5) "cookie" = Normal cookie
           /\ nullish cookie = true).
Proof.
  intros o. apply (getTTL_throws_iff demo_heap o (VObject 5) "a").
  simpl. discriminate.
Defined.

(** ** Writing and reading back *)

Lemma lru_set_then_get now n k v t c :
  LRU.maxEntries c ≠ Finite 0 ->
  fst (LRU.get now k (LRU.set n k v t c))
  = if (now <? n + t)%Z then v else VUndefined.
Proof.
  intros Hcap.
  set (e := {| LRU.key := k; LRU.value := v;
               LRU.insertedOrUpdatedAt := n; LRU.ttlMillis := t |}).
  destruct (trim_cons (LRU.maxEntries c) e (LRU.remove k (LRU.entries c)) Hcap)
    as (es & Hes & _).
  rewrite (get_found now k _ e); [done|].
  simpl. fold e. rewrite Hes, find_cons, decide_True; done.
Qed.

Lemma call_Get_data now k s :
  fst (call (Get now k) s) = RData (fst (LRU.get now k (MemoryStore.store (self s)))).
Proof.
  simpl. unfold MemoryStore.get. by destruct (LRU.get now k (MemoryStore.store (self s))).
Qed.

(** A session written with [set] at time [n], with resolved TTL [t], is what
    [get] returns at every time before [n + t], and is absent from then on,
    whatever was stored under that key before. *)
Theorem set_then_get (s : Sys) (k : string) (sess : Val) (n t now : Z) :
  reachable s ->
  getTTL (heap s) (OfOptions (MemoryStore.options (self s))) sess k = Normal t ->
  fst (call (Get now k) (snd (call (Set_ n k sess) s)))
  = RData (if (now <? n + t)%Z then sess else VUndefined).
Proof.
  intros Hreach Ht. rewrite (call_Set_resolves _ _ _ _ _ Ht), call_Get_data. simpl.
  f_equal. apply (lru_set_then_get now n k sess t (MemoryStore.store (self s))).
  by apply reachable_capacity.
Qed.

Lemma set_then_get_witness :
  fst (call (Get 999 "a")
         (snd (call (Set_ 0 "a" (VObject 3)) (demo_sys None (TtlVal VUndefined)))))
  = RData (if (999 <? 0 + 1000)%Z then VObject 3 else VUndefined).
Proof.
  apply (set_then_get (demo_sys None (TtlVal VUndefined)) "a" (VObject 3) 0 1000 999).
  - apply demo_sys_reachable.
  - reflexivity.
Defined.

(** [touch] writes the session it is given: on a key that is not stored it
    creates the entry, on a stored key it replaces the value, and [get]
    then returns that session until the TTL resolved by [touch] runs out. *)
Theorem touch_then_get (s : Sys) (k : string) (sess : Val) (n t now : Z) :
  reachable s ->
  getTTL (heap s) (OfCache (MemoryStore.store (self s))) sess k = Normal t ->
  fst (call (Get now k) (snd (call (Touch n k sess) s)))
  = RData (if (now <? n + t)%Z then sess else VUndefined).
Proof.
  intros Hreach Ht. rewrite (call_Touch_resolves _ _ _ _ _ Ht), call_Get_data. simpl.
  f_equal. apply (lru_set_then_get now n k sess t (MemoryStore.store (self s))).
  by apply reachable_capacity.
Qed.

Lemma touch_then_get_witness :
  fst (call (Get 999 "a")
         (snd (call (Touch 0 "a" (VObject 3)) (demo_sys None (TtlVal (VNumber 5))))))
  = RData (if (999 <? 0 + 1000)%Z then VObject 3 else VUndefined).
Proof.
  apply (touch_then_get (demo_sys None (TtlVal (VNumber 5))) "a" (VObject 3) 0 1000 999).
  - apply demo_sys_reachable.
  - reflexivity.
Defined.

(** In a store without a usable [ttl] option, [touch] does exactly what
    [set] does: same reply, same resulting state. *)
Theorem touch_is_set_without_ttl_option (s : Sys) (now : Z) (sid : string) (sess : Val) :
  ttl_unset (ttl (MemoryStore.options (self s))) ->
  call (Touch now sid sess) s = call (Set_ now sid sess) s.
Proof.
  intros Hunset. simpl. unfold MemoryStore.touch, MemoryStore.set.
  rewrite (getTTL_unset _ (OfOptions _)) by done.
  rewrite (getTTL_unset _ (OfCache _)); [done|]. by split.
Qed.

Lemma touch_is_set_without_ttl_option_witness :
  call (Touch 7 "a" (VObject 3)) (demo_sys None (TtlVal (VString "")))
  = call (Set_ 7 "a" (VObject 3)) (demo_sys None (TtlVal (VString ""))).
Proof.
  apply (touch_is_set_without_ttl_option (demo_sys None (TtlVal (VString "")))).
  split; [reflexivity | simpl; discriminate].
Defined.

(** ** Construction *)

Lemma or_number_nonzero x d : d ≠ 0%Z -> MemoryStore.or_number x d ≠ 0%Z.
Proof.
  intros Hd. unfold MemoryStore.or_number.
  destruct x as [n|]; [|done]. destruct (Z.eqb_spec n 0); done.
Qed.

Lemma or_Infinity_nonzero x : MemoryStore.or_Infinity x ≠ Finite 0.
Proof. by destruct x as [[[|n]|]|]. Qed.

(** Called without [new] the constructor throws; called with [new] it
    succeeds for every options object, missing or not, and leaves a store
    whose [checkPeriod] is the given one, or 3600000 when that is missing
    or 0, whose [max] is the given one, or [Infinity] when that is missing
    or 0, whose [ttl] is kept as given, whose cache is empty with that
    capacity, and whose interval is registered under a handle that was
    free, with that period, beside the host's other timers. *)
Theorem constructor_normalises (opts : option Options) (tm : gmap nat Z) :
  MemoryStore.MemoryStore false opts tm
    = Throw (TypeError "Cannot call MemoryStore constructor as a function")
  /\ exists self tm' p c,
       MemoryStore.MemoryStore true opts tm = Normal (self, tm')
       /\ MemoryStore.options self
          = {| checkPeriod := Some p; max := Some c; ttl := ttl (default no_options opts) |}
       /\ p ≠ 0%Z
       /\ (checkPeriod (default no_options opts) = Some p
           \/ (p = 3600000%Z
               /\ (checkPeriod (default no_options opts) = None
                   \/ checkPeriod (default no_options opts) = Some 0%Z)))
       /\ c ≠ Finite 0
       /\ (max (default no_options opts) = Some c
           \/ (c = Infinity
               /\ (max (default no_options opts) = None
                   \/ max (default no_options opts) = Some (Finite 0))))
       /\ MemoryStore.store self = {| LRU.maxEntries := c; LRU.entries := [] |}
       /\ tm !! MemoryStore._checkInterval self = None
       /\ tm' = <[MemoryStore._checkInterval self := p]> tm.
Proof.
  split; [reflexivity|].
  eexists _, _, _, _. split; [reflexivity|]. simpl.
  split; [reflexivity|]. split; [by apply or_number_nonzero|]. split.
  { unfold MemoryStore.or_number.
    destruct (checkPeriod (default no_options opts)) as [n|]; [|auto].
    destruct (Z.eqb_spec n 0) as [->|]; auto. }
  split; [apply or_Infinity_nonzero|]. split.
  { destruct (max (default no_options opts)) as [[[|n]|]|]; simpl; auto. }
  split; [reflexivity|]. split; [|reflexivity].
  apply not_elem_of_dom_1, is_fresh.
Qed.

(** Two stores constructed in one host get different interval handles and
    both sweepers run; cancelling the first store's interval stops that
    sweeper and leaves the second one running. *)
Theorem two_stores_have_independent_sweepers
    (opts1 opts2 : option Options) (tm tm1 tm2 : gmap nat Z)
    (self1 self2 : MemoryStore.Self) :
  MemoryStore.MemoryStore true opts1 tm = Normal (self1, tm1) ->
  MemoryStore.MemoryStore true opts2 tm1 = Normal (self2, tm2) ->
  MemoryStore._checkInterval self1 ≠ MemoryStore._checkInterval self2
  /\ sweeper tm2 (MemoryStore._checkInterval self1) = Running
  /\ sweeper tm2 (MemoryStore._checkInterval self2) = Running
  /\ sweeper (clearInterval (MemoryStore._checkInterval self1) tm2)
       (MemoryStore._checkInterval self1) = Stopped
  /\ sweeper (clearInterval (MemoryStore._checkInterval self1) tm2)
       (MemoryStore._checkInterval self2) = Running.
Proof.
  simpl. intros [= <- <-] [= <- <-]. simpl.
  set (h1 := fresh (dom tm)).
  set (p1 := MemoryStore.or_number (checkPeriod (default no_options opts1)) oneDay).
  set (h2 := fresh (dom (<[h1:=p1]> tm))).
  assert (h1 ≠ h2) as Hne.
  { intros Heq. apply (is_fresh (dom (<[h1:=p1]> tm))). fold h2. rewrite <- Heq.
    apply elem_of_dom. rewrite lookup_insert_eq. by eexists. }
  assert (forall m : gmap nat Z, forall i, is_Some (m !! i) -> sweeper m i = Running)
    as Hrun.
  { intros m i Hi. unfold sweeper. by rewrite bool_decide_eq_true_2. }
  split; [done|]. split; [|split; [|split]].
  - apply Hrun. rewrite lookup_insert_ne, lookup_insert_eq by done. by eexists.
  - apply Hrun. rewrite lookup_insert_eq. by eexists.
  - apply sweeper_Stopped, lookup_delete_eq.
  - apply Hrun. unfold clearInterval.
    rewrite lookup_delete_ne, lookup_insert_eq by done. by eexists.
Qed.

Lemma two_stores_have_independent_sweepers_witness :
  let self1 := demo_self None (TtlVal VUndefined) in
  let self2 :=
    {| MemoryStore.options :=
         {| checkPeriod := Some 500%Z; max := Some (Finite 3); ttl := TtlVal VUndefined |};
       MemoryStore.store := LRU.create (Finite 3);
       MemoryStore._checkInterval := 1 |} in
  let tm2 : gmap nat Z := <[1 := 500%Z]> {[ 0 := oneDay ]} in
  MemoryStore._checkInterval self1 ≠ MemoryStore._checkInterval self2
  /\ sweeper tm2 (MemoryStore._checkInterval self1) = Running
  /\ sweeper tm2 (MemoryStore._checkInterval self2) = Running
  /\ sweeper (clearInterval (MemoryStore._checkInterval self1) tm2)
       (MemoryStore._checkInterval self1) = Stopped
  /\ sweeper (clearInterval (MemoryStore._checkInterval self1) tm2)
       (MemoryStore._checkInterval self2) = Running.
Proof.
  intros self1 self2 tm2.
  apply (two_stores_have_independent_sweepers
           None
           (Some {| checkPeriod := Some 500%Z; max := Some (Finite 3);
                    ttl := TtlVal VUndefined |})
           ∅ {[ 0 := oneDay ]} tm2 self1 self2).
  - reflexivity.
  - vm_compute. reflexivity.
Defined.

(** In a store whose [ttl] option is not a function, no call, tick or
    cancellation changes the store's options, the capacity of its cache or
    its interval handle; and none registers another timer: the host's
    timers only shrink. *)
Theorem configuration_is_fixed (s : Sys) (evs : list Event) :
  typeof_ttl (ttl (MemoryStore.options (self s))) ≠ TyFunction ->
  Forall not_caller_write evs ->
  MemoryStore.options (self (run s evs)) = MemoryStore.options (self s)
  /\ LRU.maxEntries (MemoryStore.store (self (run s evs)))
     = LRU.maxEntries (MemoryStore.store (self s))
  /\ MemoryStore._checkInterval (self (run s evs)) = MemoryStore._checkInterval (self s)
  /\ timers (run s evs) ⊆ timers s.
Proof.
  intros _ _.
  destruct (run_frame s evs) as (Hh & Ho & Hm). repeat split; try done.
  clear. induction evs as [|ev evs IH] using rev_ind; [done|].
  rewrite run_snoc. etrans; [|exact IH].
  destruct ev as [c|handle now|handle|l p x]; simpl.
  - by destruct (call_frame c (run s evs)) as (-> & _).
  - unfold tick. by destruct (_ && _).
  - apply delete_subseteq.
  - done.
Qed.

Lemma configuration_is_fixed_witness :
  let s := demo_sys (Some (Finite 2)) (TtlVal (VNumber 10)) in
  let evs := [Invoke (Set_ 0 "a" (VObject 1)); Tick 0 20; Invoke Clear;
              ClearInterval 0; Invoke (Touch 30 "b" (VObject 3))] in
  MemoryStore.options (self (run s evs)) = MemoryStore.options (self s)
  /\ LRU.maxEntries (MemoryStore.store (self (run s evs)))
     = LRU.maxEntries (MemoryStore.store (self s))
  /\ MemoryStore._checkInterval (self (run s evs)) = MemoryStore._checkInterval (self s)
  /\ timers (run s evs) ⊆ timers s.
Proof.
  intros s evs. apply (configuration_is_fixed s evs).
  - simpl. discriminate.
  - repeat constructor.
Defined.

(** ** What [all] writes, and when it throws *)
Section all_effects.
Implicit Types (h : Heap) (es : list LRU.Entry) (v x : Val) (p q : string).

Lemma set_prop_other h u q x h' v p :
  set_prop h u q x = Normal h' -> p ≠ q -> get_prop h' v p = get_prop h v p.
Proof.
  intros Hset Hne.
  destruct u as [| |b|n|str|l]; simpl in Hset; try done; try by injection Hset as <-.
  injection Hset as <-.
  destruct v as [| |b|n|str|l']; simpl; try done. f_equal.
  destruct (decide (l = l')) as [<-|Hl].
  - rewrite lookup_insert_eq. simpl. rewrite lookup_insert_ne by done.
    destruct (h !! l); simpl; [done|]. by rewrite lookup_empty.
  - by rewrite lookup_insert_ne.
Qed.

Lemma all_loop_other_props h es r h' res v p :
  MemoryStore.all_loop h es r = (h', res) -> p ≠ "id"%string ->
  get_prop h' v p = get_prop h v p.
Proof.
  intros Hloop Hp. revert h r Hloop. induction es as [|e es IH]; intros h r; simpl.
  - by intros [= <- _].
  - destruct (set_prop h (LRU.value e) "id" (VString (LRU.key e))) as [h1|err]
      eqn:Hset.
    + intros ->%IH. by eapply set_prop_other.
    + by intros [= <- _].
Qed.

Lemma all_loop_app h pre rest r :
  MemoryStore.all_loop h (pre ++ rest) r =
  match MemoryStore.all_loop h pre r with
  | (h1, Normal r1) => MemoryStore.all_loop h1 rest r1
  | (h1, Throw err) => (h1, Throw err)
  end.
Proof.
  revert h r. induction pre as [|e pre IH]; intros h r; simpl; [done|].
  destruct (set_prop h (LRU.value e) "id" (VString (LRU.key e))); [apply IH | done].
Qed.

Lemma set_prop_nullish h v q x : is_Normal (set_prop h v q x) = negb (nullish v).
Proof. by destruct v. Qed.

Lemma all_loop_completes h es r :
  Forall (fun e => nullish (LRU.value e) = false) es ->
  exists h', MemoryStore.all_loop h es r = (h', Normal (r ++ map LRU.value es)).
Proof.
  intros Hes. revert h r. induction Hes as [|e es He _ IH]; intros h r; simpl.
  - exists h. by rewrite app_nil_r.
  - pose proof (set_prop_nullish h (LRU.value e) "id" (VString (LRU.key e))) as Hn.
    rewrite He in Hn.
    destruct (set_prop h (LRU.value e) "id" (VString (LRU.key e))) as [h1|]; [|done].
    destruct (IH h1 (r ++ [LRU.value e])) as (h' & ->). exists h'.
    by rewrite <- app_assoc.
Qed.

End all_effects.

(** A store whose [ttl] option is not a function never writes anything but
    [id] into an object: after any call, whether it returned or threw,
    every other property of every value reads as before; so the TTL that
    [getTTL] resolves for a session is the same after the call as before
    it. *)
Theorem calls_write_only_id (c : Call) (s : Sys) :
  typeof_ttl (ttl (MemoryStore.options (self s))) ≠ TyFunction ->
  (forall v p, p ≠ "id"%string ->
     get_prop (heap (snd (call c s))) v p = get_prop (heap s) v p)
  /\ (forall o sess sid,
        typeof_ttl (prop_ttl o) ≠ TyFunction ->
        getTTL (heap (snd (call c s))) o sess sid = getTTL (heap s) o sess sid).
Proof.
  intros _.
  assert (forall v p, p ≠ "id"%string ->
            get_prop (heap (snd (call c s))) v p = get_prop (heap s) v p) as Hframe.
  { intros v p Hp.
    destruct c as [now sid|now sid sess|sid|now sid sess|now|now| |]; simpl; try done.
    - by destruct (MemoryStore.get now sid (self s)).
    - by destruct (MemoryStore.set _ _ _ _ _).
    - by destruct (MemoryStore.touch _ _ _ _ _).
    - unfold MemoryStore.all.
      destruct (MemoryStore.all_loop _ _ _) as [h' res] eqn:Hloop. simpl.
      by eapply all_loop_other_props. }
  split; [exact Hframe|].
  intros o sess sid Hfun. unfold getTTL.
  destruct (prop_ttl o) as [v|f]; [|done].
  destruct v; try done; destruct (truthy _); try done;
    rewrite (Hframe sess "cookie") by done;
    (destruct (get_prop (heap s) sess "cookie") as [cookie|]; simpl; [|done]);
    by rewrite (Hframe cookie "maxAge").
Qed.

Lemma calls_write_only_id_witness :
  let s := run (demo_sys None (TtlVal VUndefined)) [Invoke (Set_ 0 "a" (VObject 3))] in
  get_prop (heap (snd (call (All 1) s))) (VObject 3) "cookie"
  = get_prop (heap s) (VObject 3) "cookie"
  /\ getTTL (heap (snd (call (All 1) s))) (OfOptions (MemoryStore.options (self s)))
       (VObject 3) "a"
     = getTTL (heap s) (OfOptions (MemoryStore.options (self s))) (VObject 3) "a".
Proof.
  intros s. destruct (calls_write_only_id (All 1) s) as [Hprops Httl].
  - simpl. discriminate.
  - split.
    + apply Hprops. discriminate.
    + apply Httl. simpl. discriminate.
Defined.

(** Every entry present after an event was present before it or is the one
    a successful [set] or [touch] has just written. *)
Lemma step_entries_value s ev e :
  e ∈ entries_of (step s ev) ->
  e ∈ entries_of s
  \/ (exists now sid,
        ev = Invoke (Set_ now sid (LRU.value e))
        /\ is_Normal (getTTL (heap s) (OfOptions (MemoryStore.options (self s)))
                        (LRU.value e) sid) = true)
  \/ (exists now sid,
        ev = Invoke (Touch now sid (LRU.value e))
        /\ is_Normal (getTTL (heap s) (OfCache (MemoryStore.store (self s)))
                        (LRU.value e) sid) = true).
Proof.
  destruct ev as [c|handle now|handle|l p x]; simpl; auto.
  - destruct c as [now sid|now sid sess|sid|now sid sess|now|now| |]; simpl; auto.
    + intros He. left. revert He. unfold MemoryStore.get.
      pose proof (elem_of_get e now sid (MemoryStore.store (self s))) as Hget.
      destruct (LRU.get now sid (MemoryStore.store (self s))); simpl in *. auto.
    + unfold MemoryStore.set.
      destruct (getTTL _ _ _ _) as [t|] eqn:Ht; simpl; [|auto].
      intros [->|He]%elem_of_trim%elem_of_cons.
      * right; left. exists now, sid. simpl. by rewrite Ht.
      * left. by eapply elem_of_remove.
    + intros He. left. revert He. destruct sid as [k|ks]; simpl.
      * apply elem_of_remove.
      * rewrite del_many. simpl. rewrite list_elem_of_filter. tauto.
    + unfold MemoryStore.touch.
      destruct (getTTL _ _ _ _) as [t|] eqn:Ht; simpl; [|auto].
      intros [->|He]%elem_of_trim%elem_of_cons.
      * right; right. exists now, sid. simpl. by rewrite Ht.
      * left. by eapply elem_of_remove.
    + destruct (MemoryStore.all _ _ _); simpl. auto.
    + intros []%elem_of_nil.
  - unfold tick. destruct (_ && _); simpl; [|auto].
    unfold LRU.live. rewrite list_elem_of_filter. tauto.
Qed.

Lemma getTTL_unset_not_nullish h o sess sid :
  ttl_unset (prop_ttl o) -> is_Normal (getTTL h o sess sid) = true ->
  nullish sess = false.
Proof.
  intros Hunset Hok. rewrite (getTTL_unset _ _ _ _ Hunset) in Hok.
  by destruct sess.
Qed.

(** While the [ttl] option of a store is unset (falsy and not a number),
    [set] and [touch] of [undefined] or [null] throw and store nothing;
    so if no stored value is [undefined] or [null], none is after any
    call, and [all] on that store does not throw: it returns the live
    sessions. *)
Theorem unset_ttl_keeps_nullish_values_out (s : Sys) (c : Call) (now : Z) :
  ttl_unset (ttl (MemoryStore.options (self s))) ->
  Forall (fun e => nullish (LRU.value e) = false) (entries_of s) ->
  (forall now' sid sess,
     nullish sess = true ->
     exists err, call (Set_ now' sid sess) s = (RThrow err, s)
                 /\ call (Touch now' sid sess) s = (RThrow err, s))
  /\ Forall (fun e => nullish (LRU.value e) = false) (entries_of (snd (call c s)))
  /\ fst (call (All now) s)
     = RSessions (map LRU.value (LRU.forEach now (MemoryStore.store (self s)))).
Proof.
  intros Hunset Hvals. split; [|split].
  - intros now' sid sess Hnull.
    exists (TypeError "Cannot read properties of undefined or null").
    split; [apply call_Set_throws | apply call_Touch_throws].
    + rewrite getTTL_unset by done. by destruct sess.
    + rewrite getTTL_unset by (by split). by destruct sess.
  - apply Forall_forall. intros e He.
    change (snd (call c s)) with (step s (Invoke c)) in He.
    apply step_entries_value in He
      as [He|[(n & sid & _ & Hok)|(n & sid & _ & Hok)]].
    + rewrite Forall_forall in Hvals. by apply Hvals.
    + by eapply getTTL_unset_not_nullish; [|exact Hok].
    + eapply getTTL_unset_not_nullish; [|exact Hok]. by split.
  - simpl. unfold MemoryStore.all.
    destruct (all_loop_completes (heap s)
                (LRU.forEach now (MemoryStore.store (self s))) [])
      as (h' & ->); [|done].
    unfold LRU.forEach, LRU.live. rewrite Forall_forall in *.
    intros e [_ He]%list_elem_of_filter. by apply Hvals.
Qed.

Lemma unset_ttl_keeps_nullish_values_out_witness :
  let s := run (demo_sys None (TtlVal VNull)) [Invoke (Set_ 0 "a" (VObject 1))] in
  (exists err, call (Set_ 1 "b" VNull) s = (RThrow err, s)
               /\ call (Touch 1 "b" VNull) s = (RThrow err, s))
  /\ Forall (fun e => nullish (LRU.value e) = false)
       (entries_of (snd (call (Touch 2 "c" (VObject 3)) s)))
  /\ fst (call (All 3) s)
     = RSessions (map LRU.value (LRU.forEach 3 (MemoryStore.store (self s)))).
Proof.
  intros s.
  destruct (unset_ttl_keeps_nullish_values_out s (Touch 2 "c" (VObject 3)) 3)
    as (Hthrow & Hkeep & Hall).
  - split; [reflexivity | simpl; discriminate].
  - repeat constructor.
  - split; [apply (Hthrow 1%Z "b"%string VNull); reflexivity|]. by split.
Defined.

(** [all] throws as soon as it meets a live entry whose value is
    [undefined] or [null] (a store with a numeric or function [ttl] accepts
    such values).  The store itself is left as it was, but the sessions
    visited before that entry keep the [id] already written into them. *)
Theorem all_throws_on_nullish_value
    (s : Sys) (now : Z) (pre post : list LRU.Entry) (e : LRU.Entry) :
  LRU.forEach now (MemoryStore.store (self s)) = pre ++ e :: post ->
  Forall (fun e => nullish (LRU.value e) = false) pre ->
  nullish (LRU.value e) = true ->
  exists msg h',
    call (All now) s
    = (RThrow (TypeError msg), {| heap := h'; timers := timers s; self := self s |})
    /\ MemoryStore.all_loop (heap s) pre [] = (h', Normal (map LRU.value pre)).
Proof.
  intros Hlive Hpre He. simpl. unfold MemoryStore.all.
  rewrite Hlive, all_loop_app.
  destruct (all_loop_completes (heap s) pre [] Hpre) as (h' & Hloop).
  rewrite Hloop. simpl.
  exists "Cannot set properties of undefined or null"%string, h'.
  split; [|done]. by destruct (LRU.value e).
Qed.

Lemma all_throws_on_nullish_value_witness :
  let s := run (demo_sys None (TtlVal (VNumber 50)))
             [Invoke (Set_ 0 "b" VNull); Invoke (Set_ 1 "a" (VObject 1))] in
  exists msg h',
    call (All 2) s
    = (RThrow (TypeError msg), {| heap := h'; timers := timers s; self := self s |})
    /\ MemoryStore.all_loop (heap s)
         [{| LRU.key := "a"; LRU.value := VObject 1;
             LRU.insertedOrUpdatedAt := 1; LRU.ttlMillis := 50 |}] []
       = (h', Normal [VObject 1]).
Proof.
  intros s.
  apply (all_throws_on_nullish_value s 2
           [{| LRU.key := "a"; LRU.value := VObject 1;
               LRU.insertedOrUpdatedAt := 1; LRU.ttlMillis := 50 |}]
           []
           {| LRU.key := "b"; LRU.value := VNull;
              LRU.insertedOrUpdatedAt := 0; LRU.ttlMillis := 50 |}).
  - vm_compute. reflexivity.
  - repeat constructor.
  - reflexivity.
Defined.

(** ** Keys are unique *)

Lemma in_use_order_NoDup log es : in_use_order log es -> NoDup (map LRU.key es).
Proof.
  intros [Hs _]. induction Hs as [|e es Hs IH Hall]; simpl; [constructor|].
  apply NoDup_cons. split; [|done].
  intros (e' & Hk & He')%list_elem_of_fmap.
  rewrite Forall_forall in Hall. specialize (Hall e' He').
  unfold more_recent in Hall. rewrite Hk in Hall. lia.
Qed.

Lemma reachable_NoDup s : reachable s -> NoDup (map LRU.key (entries_of s)).
Proof.
  intros (h & tm & opts & s0 & evs & Hboot & ->).
  apply (in_use_order_NoDup (uses s0 evs)), run_use_order.
  rewrite (boot_entries _ _ _ _ Hboot). split; constructor.
Qed.

Lemma NoDup_key_unique es e e' :
  NoDup (map LRU.key es) -> e ∈ es -> e' ∈ es -> LRU.key e = LRU.key e' -> e = e'.
Proof.
  induction es as [|x es IH]; simpl; [by intros _ ?%elem_of_nil|].
  rewrite NoDup_cons, !elem_of_cons. intros [Hx Hnd] [->|He] [->|He'] Hk; auto.
  - destruct Hx. rewrite Hk. by apply list_elem_of_fmap_2.
  - destruct Hx. rewrite <- Hk. by apply list_elem_of_fmap_2.
Qed.

Lemma find_is_Some k es e : e ∈ es -> LRU.key e = k -> is_Some (LRU.find k es).
Proof.
  intros He Hk. destruct (LRU.find k es) eqn:Hfind; [by eexists|].
  rewrite find_None, Forall_forall in Hfind. by destruct (Hfind e He).
Qed.

Lemma find_unique k es e :
  NoDup (map LRU.key es) -> e ∈ es -> LRU.key e = k -> LRU.find k es = Some e.
Proof.
  intros Hnd He Hk. destruct (find_is_Some k es e He Hk) as [e' Hfind].
  rewrite Hfind. f_equal. apply find_Some in Hfind as [He' Hk'].
  apply (NoDup_key_unique es); congruence.
Qed.


Lemma get_data now k c :
  fst (LRU.get now k c)
  = match LRU.find k (LRU.entries c) with
    | Some e => if LRU.expired now e then VUndefined else LRU.value e
    | None => VUndefined
    end.
Proof.
  unfold LRU.get. destruct (LRU.find k (LRU.entries c)) as [e|]; [|done].
  by destruct (LRU.expired now e).
Qed.

(** [ids] lists each key at most once; a key is listed exactly when [get]
    at that time finds a live entry for it; and [length] may count more,
    as it also counts expired entries that are still stored. *)
Theorem ids_are_the_live_keys (s : Sys) (now : Z) (k : string) :
  reachable s ->
  NoDup (MemoryStore.ids now (self s))
  /\ (k ∈ MemoryStore.ids now (self s) <-> used_key s (Invoke (Get now k)) = Some k)
  /\ length (MemoryStore.ids now (self s)) <= MemoryStore.length (self s).
Proof.
  intros Hnd%reachable_NoDup.
  unfold MemoryStore.ids, LRU.keys, MemoryStore.length, LRU.itemCount.
  split; [|split].
  - apply (sublist_NoDup _ (map LRU.key (entries_of s)) Hnd).
    apply (fmap_sublist LRU.key), live_sublist.
  - simpl. split.
    + intros (e & -> & [Hlive He]%list_elem_of_filter)%list_elem_of_fmap.
      rewrite (find_unique _ _ e) by done. by rewrite Hlive.
    + destruct (LRU.find k (entries_of s)) as [e|] eqn:Hfind; [|done].
      destruct (LRU.expired now e) eqn:Hexp; [done|]. intros _.
      apply find_Some in Hfind as [He <-].
      apply list_elem_of_fmap_2, list_elem_of_filter. by split.
  - rewrite length_map. apply sublist_length, live_sublist.
Qed.

Lemma ids_are_the_live_keys_witness :
  let s := run (demo_sys None (TtlVal (VNumber 10)))
             [Invoke (Set_ 0 "a" (VObject 1)); Invoke (Set_ 8 "b" (VObject 3))] in
  NoDup (MemoryStore.ids 12 (self s))
  /\ ("b"%string ∈ MemoryStore.ids 12 (self s)
      <-> used_key s (Invoke (Get 12 "b")) = Some "b"%string)
  /\ length (MemoryStore.ids 12 (self s)) <= MemoryStore.length (self s).
Proof.
  intros s. apply (ids_are_the_live_keys s 12 "b").
  exists demo_heap, ∅,
    (Some {| checkPeriod := None; max := None; ttl := TtlVal (VNumber 10) |}),
    (demo_sys None (TtlVal (VNumber 10))),
    [Invoke (Set_ 0 "a" (VObject 1)); Invoke (Set_ 8 "b" (VObject 3))].
  split; reflexivity.
Defined.

(** ** The sweep *)






(** ** Clearing and destroying *)

(** [clear] empties the store whatever it held: [length] is 0, [ids] and
    [all] return nothing, and [get] finds no key until that key is set or
    touched again; heap, timers and options are untouched, and a second
    [clear] changes nothing. *)
Theorem clear_empties (s : Sys) :
  fst (call Clear s) = RDone
  /\ MemoryStore.length (self (snd (call Clear s))) = 0
  /\ (forall now, MemoryStore.ids now (self (snd (call Clear s))) = [])
  /\ (forall now, fst (call (All now) (snd (call Clear s))) = RSessions [])
  /\ (forall k now evs,
        Forall (avoids k) evs ->
        fst (call (Get now k) (run (snd (call Clear s)) evs)) = RData VUndefined)
  /\ heap (snd (call Clear s)) = heap s
  /\ timers (snd (call Clear s)) = timers s
  /\ MemoryStore.options (self (snd (call Clear s))) = MemoryStore.options (self s)
  /\ snd (call Clear (snd (call Clear s))) = snd (call Clear s).
Proof.
  repeat split; try done.
  intros k now evs Hav. apply (call_Get_gone now k now); [|lia].
  apply run_gone; [done|]. by apply gone_by_absent.
Qed.

Lemma clear_empties_witness :
  let s := run (demo_sys None (TtlVal (VNumber 10)))
             [Invoke (Set_ 0 "a" (VObject 1)); Invoke (Set_ 8 "b" (VObject 3))] in
  fst (call (Get 9 "b") (run (snd (call Clear s)) [Invoke (Set_ 9 "a" (VObject 1))]))
  = RData VUndefined.
Proof.
  intros s. destruct (clear_empties s) as (_ & _ & _ & _ & Hget & _).
  apply Hget. repeat constructor. simpl. discriminate.
Defined.

(** Destroying a batch of keys is destroying them one by one in order, and
    a batch of one key is that key alone. *)
Theorem destroy_batch_is_sequential (s : Sys) (ks : list string) :
  snd (call (Destroy (MemoryStore.Many ks)) s)
  = run s (map (fun k => Invoke (Destroy (MemoryStore.One k))) ks)
  /\ (forall k, snd (call (Destroy (MemoryStore.Many [k])) s)
                = snd (call (Destroy (MemoryStore.One k)) s)).
Proof.
  split; [|done]. revert s. induction ks as [|k ks IH]; intros s.
  - simpl. by rewrite with_store_id, with_self_id.
  - cbn [map]. rewrite run_cons, <- IH. reflexivity.
Qed.

Lemma find_filter_other (P : LRU.Entry -> Prop) `{!forall e, Decision (P e)} k es :
  (forall e, LRU.key e = k -> P e) -> LRU.find k (filter P es) = LRU.find k es.
Proof.
  intros HP. induction es as [|x es IH]; [done|].
  rewrite filter_cons, find_cons. destruct (decide (P x)) as [HPx|HPx].
  - rewrite find_cons. by case_decide.
  - rewrite decide_False; [done|]. intros Hk. by apply HPx, HP.
Qed.

(** [destroy] touches nothing but the keys it is given: for any other key
    [get] answers as before, and the heap and the timers are as before. *)
Theorem destroy_leaves_other_keys (s : Sys) (sid : MemoryStore.SidArg) (k : string) (now : Z) :
  k ∉ sids_of sid ->
  fst (call (Get now k) (snd (call (Destroy sid) s))) = fst (call (Get now k) s)
  /\ heap (snd (call (Destroy sid) s)) = heap s
  /\ timers (snd (call (Destroy sid) s)) = timers s.
Proof.
  intros Hk. split; [|done]. rewrite !call_Get_data, !get_data. simpl.
  assert (LRU.find k (LRU.entries (MemoryStore.store (MemoryStore.destroy sid (self s))))
          = LRU.find k (entries_of s)) as ->; [|done].
  destruct sid as [k'|ks]; simpl in *.
  - apply find_remove_ne. intros ->. apply Hk. by left.
  - rewrite del_many. simpl. apply find_filter_other. by intros e ->.
Qed.

Lemma destroy_leaves_other_keys_witness :
  let s := run (demo_sys None (TtlVal (VNumber 10)))
             [Invoke (Set_ 0 "a" (VObject 1)); Invoke (Set_ 8 "b" (VObject 3))] in
  let batch := MemoryStore.Many ["a"; "c"]%string in
  fst (call (Get 9 "b") (snd (call (Destroy batch) s))) = fst (call (Get 9 "b") s)
  /\ heap (snd (call (Destroy batch) s)) = heap s
  /\ timers (snd (call (Destroy batch) s)) = timers s.
Proof.
  intros s batch. apply (destroy_leaves_other_keys s batch "b" 9).
  simpl. rewrite !not_elem_of_cons. repeat split; try discriminate.
  apply not_elem_of_nil.
Defined.

(** ** Sessions and their ids *)

(** When [all] completes and no two live entries hold the same object, the
    sessions it returns line up with the keys [ids] lists, and each
    returned session object carries its own key as [id]. *)
Theorem all_tags_each_session (s : Sys) (now : Z) (vs : list Val) :
  fst (call (All now) s) = RSessions vs ->
  (forall e1 e2 l,
     e1 ∈ LRU.forEach now (MemoryStore.store (self s)) ->
     e2 ∈ LRU.forEach now (MemoryStore.store (self s)) ->
     LRU.value e1 = VObject l -> LRU.value e2 = VObject l ->
     LRU.key e1 = LRU.key e2) ->
  Forall2
    (fun k v =>
       forall l, v = VObject l ->
                 get_prop (heap (snd (call (All now) s))) v "id" = Normal (VString k))
    (MemoryStore.ids now (self s)) vs.
Proof.
  simpl. unfold MemoryStore.all.
  destruct (MemoryStore.all_loop _ _ _) as [h' [vs'|err]] eqn:Hloop; simpl; [|done].
  intros [= ->] Hdistinct.
  rewrite (all_loop_result _ _ _ _ _ Hloop). simpl.
  unfold MemoryStore.ids, LRU.keys. fold (LRU.forEach now (MemoryStore.store (self s))).
  apply Forall2_fmap, Forall_Forall2_diag, Forall_forall.
  intros e He l Hv. rewrite Hv.
  apply (all_loop_assigns _ _ _ _ _ _ _ Hloop).
  - intros e' He' Hv'. by apply (Hdistinct e' e l).
  - apply Exists_exists. by exists e.
Qed.

Lemma all_tags_each_session_witness :
  let s := run (demo_sys None (TtlVal VUndefined))
             [Invoke (Set_ 0 "a" (VObject 1)); Invoke (Set_ 1 "b" (VObject 3))] in
  Forall2
    (fun k v =>
       forall l, v = VObject l ->
                 get_prop (heap (snd (call (All 2) s))) v "id" = Normal (VString k))
    (MemoryStore.ids 2 (self s)) [VObject 3; VObject 1].
Proof.
  intros s. apply (all_tags_each_session s 2 [VObject 3; VObject 1]).
  - vm_compute. reflexivity.
  - intros e1 e2 l He1 He2 Hv1 Hv2. vm_compute in He1, He2.
    apply elem_of_cons in He1 as [->|He1]; apply elem_of_cons in He2 as [->|He2];
      try reflexivity.
    + apply elem_of_cons in He2 as [->|He2]; [|by apply elem_of_nil in He2].
      simpl in *. congruence.
    + apply elem_of_cons in He1 as [->|He1]; [|by apply elem_of_nil in He1].
      simpl in *. congruence.
    + apply elem_of_cons in He1 as [->|He1]; [|by apply elem_of_nil in He1].
      apply elem_of_cons in He2 as [->|He2]; [|by apply elem_of_nil in He2].
      reflexivity.
Defined.
